(** * shannon-ios utility scripts: a shallow embedding

    Two scripts are modelled.

    - [Scripts/fix_malformed_swift.py] (module [FixSwift]): an ordered table
      of regular-expression substitutions applied to the text of every
      Swift file below [Sources], with a transient [.bak] copy around the
      rewrite.
    - [test_backend.py] (module [Backend]): two HTTP GET probes against a
      local service and an exit code.

    Python's [re] engine is embedded in module [Re] for the fragment of the
    pattern language the table uses: literal characters, [\s+] and [\b]. *)

From Stdlib Require Import NArith List String Ascii Bool Lia.
From stdpp Require Import base option list gmap strings.

Local Open Scope N_scope.
Local Open Scope string_scope.
Local Open Scope list_scope.

(* ===================================================================== *)
(** * Control flow: a state monad with exceptions                          *)
(* ===================================================================== *)

Module Py.

(** A computation either returns a value or raises; the world it has
    reached is kept in both cases. *)
Inductive result (E A : Type) : Type :=
  | Ret (a : A)
  | Raised (e : E).
Arguments Ret {E A} a.
Arguments Raised {E A} e.

Definition M (W E A : Type) : Type := W -> result E A * W.

Section Ops.
Context {W E : Type}.

Definition ret {A} (a : A) : M W E A := fun w => (Ret a, w).

Definition bind {A B} (c : M W E A) (k : A -> M W E B) : M W E B :=
  fun w =>
    match c w with
    | (Ret a, w') => k a w'
    | (Raised e, w') => (Raised e, w')
    end.

Definition raise {A} (e : E) : M W E A := fun w => (Raised e, w).

(** The effect of a pure update of the world. *)
Definition modify (f : W -> W) : M W E unit := fun w => (Ret tt, f w).

(** [try: body  except <class> as e: handler e]: [catches e] says whether
    the [except] clause applies to [e]; otherwise [e] propagates. *)
Definition try_except {A} (body : M W E A) (catches : E -> bool)
    (handler : E -> M W E A) : M W E A :=
  fun w =>
    match body w with
    | (Ret a, w') => (Ret a, w')
    | (Raised e, w') => if catches e then handler e w' else (Raised e, w')
    end.

End Ops.

(** The monad is used through stdpp's [x ← c; k] and [c ;; k]. *)
#[global] Instance M_ret {W E} : MRet (M W E) := fun A a => ret a.
#[global] Instance M_bind {W E} : MBind (M W E) := fun A B k c => bind c k.

End Py.

(* ===================================================================== *)
(** * Python [str] and the [re] module                                    *)
(* ===================================================================== *)

Module Re.

(** A Python [str] is a sequence of Unicode code points. *)
Abbreviation text := (list N).

(** The code points of an ASCII literal of the source. *)
Definition lit (s : string) : text := map N_of_ascii (list_ascii_of_string s).

(** Python's [u in t] on strings. *)
Fixpoint starts_with (u t : text) : bool :=
  match u, t with
  | [], _ => true
  | a :: u', b :: t' => (a =? b)%N && starts_with u' t'
  | _ :: _, [] => false
  end.

Fixpoint substr (u t : text) : bool :=
  starts_with u t ||
  match t with
  | [] => false
  | _ :: t' => substr u t'
  end.

(** [\s] on a [str] pattern is [Py_UNICODE_ISSPACE]: the 29 code points
    U+0009..000D, U+001C..0020, U+0085, U+00A0, U+1680, U+2000..200A,
    U+2028, U+2029, U+202F, U+205F and U+3000. *)
Definition is_space (c : N) : bool :=
  (((9 <=? c) && (c <=? 13)) || ((28 <=? c) && (c <=? 32))
   || (c =? 133) || (c =? 160) || (c =? 5760)
   || ((8192 <=? c) && (c <=? 8202))
   || (c =? 8232) || (c =? 8233) || (c =? 8239) || (c =? 8287)
   || (c =? 12288))%N.

Definition ascii_alnum (c : N) : bool :=
  (((48 <=? c) && (c <=? 57)) || ((65 <=? c) && (c <=? 90))
   || ((97 <=? c) && (c <=? 122)))%N.

(** The atoms of the pattern dialect used by the script. *)
Inductive atom : Type :=
  | Lit (c : N)     (* a literal character *)
  | Spaces1         (* \s+  *)
  | WordB.          (* \b   *)

(** [re.compile] restricted to that dialect: a backslash is only ever
    followed by [b] or by [s+] in the table. *)
Fixpoint compile (p : string) : list atom :=
  match p with
  | String "\" (String "b" r) => WordB :: compile r
  | String "\" (String "s" (String "+" r)) => Spaces1 :: compile r
  | String c r => Lit (N_of_ascii c) :: compile r
  | EmptyString => []
  end.

Section Engine.

(** [\w] is [Py_UNICODE_ISALNUM(c) || c == '_'].  The alphanumeric table of
    the Unicode database beyond ASCII belongs to the Python runtime, not to
    the scripts: it is a parameter of the development. *)
Variable uni_alnum : N -> bool.

Definition is_word (c : N) : bool :=
  if (c <? 128)%N then ascii_alnum c || (c =? 95)%N else uni_alnum c.

(** [\b] at a position: the characters on both sides differ in wordness,
    where the outside of the string counts as a non-word character.
    [prev] is the character before the position, if any. *)
Definition boundary (prev : option N) (s : text) : bool :=
  xorb (from_option is_word false prev) (from_option is_word false (head s)).

(** One anchored match attempt, as the backtracking engine performs it:
    [\s+] is greedy and gives characters back one at a time.  The result is
    the length of the match. *)
Fixpoint match_here (p : list atom) (prev : option N) (s : text) {struct p}
  : option nat :=
  match p with
  | [] => Some 0%nat
  | Lit c :: p' =>
      match s with
      | c' :: s' => if (c =? c')%N then S <$> match_here p' (Some c') s' else None
      | [] => None
      end
  | WordB :: p' => if boundary prev s then match_here p' prev s else None
  | Spaces1 :: p' =>
      (fix spaces (s : text) : option nat :=
         match s with
         | c :: s' =>
             if is_space c then
               match spaces s' with
               | Some n => Some (S n)
               | None => S <$> match_here p' (Some c) s'
               end
             else None
         | [] => None
         end) s
  end.

(** [re.search]: is there a match starting at some position of [s]? *)
Fixpoint search_from (p : list atom) (prev : option N) (s : text) : bool :=
  match match_here p prev s with
  | Some _ => true
  | None =>
      match s with
      | [] => false
      | c :: s' => search_from p (Some c) s'
      end
  end.

(** The scan of [re.sub]: leftmost match first, then the scan resumes
    behind it; [skip] counts the characters of the current match still to
    be dropped.  Look-behind ([\b]) reads the subject string, never the
    output.  An empty match (only possible for a pattern made of [\b]
    alone) inserts the replacement and copies the character. *)
Fixpoint sub_scan (p : list atom) (repl : text) (skip : nat) (prev : option N)
    (s : text) : text :=
  match s with
  | [] =>
      match skip, match_here p prev [] with
      | O, Some _ => repl
      | _, _ => []
      end
  | c :: s' =>
      match skip with
      | S k => sub_scan p repl k (Some c) s'
      | O =>
          match match_here p prev s with
          | Some (S n) => repl ++ sub_scan p repl n (Some c) s'
          | Some O => repl ++ c :: sub_scan p repl 0 (Some c) s'
          | None => c :: sub_scan p repl 0 (Some c) s'
          end
      end
  end.

(** [re.search(pattern, string)] and [re.sub(pattern, repl, string)] with
    the pattern and the replacement template given as in the source. *)
Definition re_search (pattern : string) (s : text) : bool :=
  search_from (compile pattern) None s.

Definition re_sub (pattern repl : string) (s : text) : text :=
  sub_scan (compile pattern) (lit repl) 0 None s.

End Engine.

End Re.

(* ===================================================================== *)
(** * Scripts/fix_malformed_swift.py                                      *)
(* ===================================================================== *)

Module FixSwift.

Import Re.

(** The table of [fix_malformed_code], in source order. *)
Definition replacements : list (string * string) :=
  [ (* func declarations *)
    ("\bfunc\s+cpublic\s+reate", "public func create");
    ("\bfunc\s+epublic\s+dit", "public func edit");
    ("\bfunc\s+spublic\s+ave", "public func save");
    ("\bfunc\s+dpublic\s+elete", "public func delete");
    ("\bfunc\s+spublic\s+et", "public func set");
    ("\bfunc\s+dpublic\s+uplicate", "public func duplicate");
    ("\bfunc\s+opublic\s+pen", "public func open");
    ("\bfunc\s+tpublic\s+est", "public func test");
    ("\bfunc\s+cpublic\s+onnect", "public func connect");
    ("\bfunc\s+dpublic\s+isconnect", "public func disconnect");
    ("\bfunc\s+apublic\s+dd", "public func add");
    ("\bfunc\s+rpublic\s+emove", "public func remove");
    ("\bfunc\s+spublic\s+earch", "public func search");
    ("\bfunc\s+cpublic\s+lear", "public func clear");
    (* var declarations *)
    ("\bvar\s+cpublic\s+ategorized", "public var categorized");
    ("\bvar\s+fpublic\s+iltered", "public var filtered");
    ("\bvar\s+hpublic\s+as", "public var has");
    ("\bvar\s+cpublic\s+an", "public var can");
    (* let declarations *)
    ("\blet\s+ppublic\s+roject\b", "let project");
    ("\blet\s+cpublic\s+onfig\b", "let config");
    ("\blet\s+spublic\s+uccess\b", "let success");
    ("\blet\s+dpublic\s+uplicated\b", "let duplicated");
    ("\blet\s+ipublic\s+mpact", "let impact");
    (* split variable/function names (generic patterns) *)
    ("cpublic\s+reate", "create");
    ("epublic\s+dit", "edit");
    ("spublic\s+ave", "save");
    ("dpublic\s+elete", "delete");
    ("spublic\s+et", "set");
    ("dpublic\s+uplicate", "duplicate");
    ("opublic\s+pen", "open");
    ("tpublic\s+est", "test");
    ("cpublic\s+onnect", "connect");
    ("dpublic\s+isconnect", "disconnect");
    ("apublic\s+dd", "add");
    ("rpublic\s+emove", "remove");
    ("spublic\s+earch", "search");
    ("cpublic\s+lear", "clear");
    ("cpublic\s+ategorized", "categorized");
    ("fpublic\s+iltered", "filtered");
    ("hpublic\s+as", "has");
    ("cpublic\s+an", "can");
    ("ppublic\s+roject", "project");
    ("cpublic\s+onfig", "config");
    ("spublic\s+uccess", "success");
    ("dpublic\s+uplicated", "duplicated");
    ("ipublic\s+mpact", "impact") ].

Section Transform.

Variable uni_alnum : N -> bool.

(** [for pattern, replacement in replacements:
       modified = re.sub(pattern, replacement, modified)] *)
Definition fix_malformed_code (content : text) : text :=
  fold_left
    (fun modified '(pattern, replacement) =>
       re_sub uni_alnum pattern replacement modified)
    replacements content.

(** [s.split('\n')] *)
Fixpoint split_lines (s : text) : list text :=
  match s with
  | [] => [[]]
  | c :: s' =>
      if (c =? 10)%N then [] :: split_lines s'
      else match split_lines s' with
           | l :: ls => (c :: l) :: ls
           | [] => [[c]]
           end
  end.

(** ** The file system and the process *)

(** What a path names: a text file with its decoded content, a file whose
    bytes are not UTF-8, or a directory. *)
Inductive node : Type :=
  | File (content : text)
  | Undecodable
  | Dir.

(** [SystemExit] is not an [Exception]; every other exception of the run
    is, and carries its message. *)
Inductive exn : Type :=
  | SystemExit (code : Z)
  | Error (msg : string).

(** A transient failure the operating system injects into one I/O
    operation; a failing write leaves the first [written] characters in
    the file. *)
Record fault : Type := Fault {
  reason : string;
  written : nat }.

Inductive event : Type :=
  | EvRead (path : string)
  | EvOpenW (path : string)
  | EvWrite (path : string)
  | EvRemove (path : string).

(** One constructor per [print] of the script. *)
Inductive line : Type :=
  | FixedFile (filepath : string) (changes : nat)
      (* Fixed {filepath} ({changes} lines changed) *)
  | ErrorProcessing (filepath : string) (e : string)
      (* Error processing {filepath}: {e} *)
  | SourcesNotFound          (* Error: Sources directory not found *)
  | Scanning (n : nat)       (* Scanning {n} Swift files for malformed code... *)
  | FixedCount (n : nat)     (* Fixed {fixed_count} files *)
  | MayStillHaveIssues (n : nat)   (* {n} files may still have issues: *)
  | RemainingFile (f : string)     (*   - {f} *)
  | AllFixed.                (* All malformed patterns fixed! *)

(** The world of a run.  [swift_glob] is what
    [Path("Sources").glob("**/*.swift")] yields; [faults] schedules the
    outcome of the I/O operations to come, one entry per operation
    ([None]: the operation proceeds; past the end of the list nothing
    fails); [trace] records the I/O operations attempted. *)
Record world : Type := World {
  fs : gmap string node;
  swift_glob : list string;
  faults : list (option fault);
  stdout : list line;
  trace : list event }.

Import Py.

Definition print (l : line) : M world exn unit :=
  modify (fun w => World (fs w) (swift_glob w) (faults w) (stdout w ++ [l]) (trace w)).

Definition set_fs (m : gmap string node) : M world exn unit :=
  modify (fun w => World m (swift_glob w) (faults w) (stdout w) (trace w)).

Definition get_fs : M world exn (gmap string node) := fun w => (Ret (fs w), w).

(** Every I/O operation is logged and consumes one entry of the schedule. *)
Definition io (ev : event) : M world exn (option fault) :=
  fun w =>
    (Ret (mjoin (head (faults w))),
     World (fs w) (swift_glob w) (tail (faults w)) (stdout w) (trace w ++ [ev])).

(** [with open(path, 'r', encoding='utf-8') as f: content = f.read()] *)
Definition read_text (path : string) : M world exn text :=
  f ← io (EvRead path);
  match f with
  | Some ft => raise (Error (reason ft))
  | None =>
      m ← get_fs;
      match m !! path with
      | Some (File content) => ret content
      | Some Undecodable => raise (Error "UnicodeDecodeError")
      | Some Dir => raise (Error "IsADirectoryError")
      | None => raise (Error "FileNotFoundError")
      end
  end.

(** [open(path, 'w', encoding='utf-8')]: creates or truncates the file. *)
Definition open_w (path : string) : M world exn unit :=
  f ← io (EvOpenW path);
  match f with
  | Some ft => raise (Error (reason ft))
  | None =>
      m ← get_fs;
      match m !! path with
      | Some Dir => raise (Error "IsADirectoryError")
      | _ => set_fs (<[path := File []]> m)
      end
  end.

(** [f.write(content)] and the close at the end of the [with] block. *)
Definition write (path : string) (content : text) : M world exn unit :=
  f ← io (EvWrite path);
  m ← get_fs;
  match f with
  | Some ft =>
      set_fs (<[path := File (take (written ft) content)]> m) ;;
      raise (Error (reason ft))
  | None => set_fs (<[path := File content]> m)
  end.

(** [os.remove(path)] *)
Definition remove (path : string) : M world exn unit :=
  f ← io (EvRemove path);
  match f with
  | Some ft => raise (Error (reason ft))
  | None =>
      m ← get_fs;
      match m !! path with
      | Some Dir => raise (Error "IsADirectoryError")
      | Some _ => set_fs (delete path m)
      | None => raise (Error "FileNotFoundError")
      end
  end.

(** [except Exception] *)
Definition is_exception (e : exn) : bool :=
  match e with SystemExit _ => false | Error _ => true end.

Definition message (e : exn) : string :=
  match e with SystemExit _ => "" | Error msg => msg end.

(** [len([1 for a, b in zip(original.split('\n'), modified.split('\n'))
          if a != b])] *)
Definition changed_lines (original modified : text) : nat :=
  length (filter (fun ab => ab.1 ≠ ab.2)
            (zip (split_lines original) (split_lines modified))).

(** The body of the [try] block of [process_file]. *)
Definition process_file_body (filepath : string) : M world exn bool :=
  content ← read_text filepath;
  let original := content in
  let modified := fix_malformed_code content in
  if bool_decide (modified ≠ original) then
    (* Create backup *)
    let backup_path := filepath +:+ ".bak" in
    open_w backup_path ;;
    write backup_path original ;;
    (* Write fixed content *)
    open_w filepath ;;
    write filepath modified ;;
    (* Count changes *)
    let changes := changed_lines original modified in
    print (FixedFile filepath changes) ;;
    (* Remove backup *)
    remove backup_path ;;
    ret true
  else
    ret false.

Definition process_file (filepath : string) : M world exn bool :=
  try_except (process_file_body filepath) is_exception
    (fun e => print (ErrorProcessing filepath (message e)) ;; ret false).

(** [for filepath in swift_files: if process_file(filepath): fixed_count += 1] *)
Fixpoint process_all (swift_files : list string) (fixed_count : nat)
  : M world exn nat :=
  match swift_files with
  | [] => ret fixed_count
  | filepath :: rest =>
      fixed ← process_file filepath;
      process_all rest (if fixed : bool then S fixed_count else fixed_count)
  end.

Definition markers : list string :=
  [ "cpublic "; "fpublic "; "hpublic "; "ppublic ";
    "dpublic "; "epublic "; "spublic "; "opublic ";
    "tpublic "; "apublic "; "rpublic "; "ipublic " ].

(** [any(pattern in content for pattern in [...])] *)
Definition has_marker (content : text) : bool :=
  existsb (fun pattern => substr (lit pattern) content) markers.

(** The verification loop of [main]: the read is not guarded. *)
Fixpoint verify (swift_files : list string) (remaining : list string)
  : M world exn (list string) :=
  match swift_files with
  | [] => ret remaining
  | filepath :: rest =>
      content ← read_text filepath;
      verify rest (if has_marker content then remaining ++ [filepath] else remaining)
  end.

Fixpoint print_each (fs : list string) : M world exn unit :=
  match fs with
  | [] => ret tt
  | f :: rest => print (RemainingFile f) ;; print_each rest
  end.

Definition sources_dir : string := "Sources".

Definition main : M world exn unit :=
  m ← get_fs;
  if negb (bool_decide (is_Some (m !! sources_dir))) then
    print SourcesNotFound ;;
    raise (SystemExit 1)
  else
    swift_files ← (fun w => (Ret (swift_glob w), w));
    print (Scanning (length swift_files)) ;;
    fixed_count ← process_all swift_files 0%nat;
    print (FixedCount fixed_count) ;;
    (* Verify no patterns remain *)
    remaining ← verify swift_files [];
    match remaining with
    | _ :: _ =>
        print (MayStillHaveIssues (length remaining)) ;;
        print_each (take 5 remaining)
    | [] => print AllFixed
    end.

(** The exit status of the process: 0 when [main] returns, the code of
    [sys.exit], and 1 for an exception nobody caught. *)
Definition exit_status (r : result exn unit) : Z :=
  match r with
  | Ret _ => 0
  | Raised (SystemExit code) => code
  | Raised (Error _) => 1
  end.

Definition script (w : world) : Z * world :=
  let (r, w') := main w in (exit_status r, w').

End Transform.

End FixSwift.


(* ===================================================================== *)
(** * test_backend.py                                                     *)
(* ===================================================================== *)

Module Backend.

Import Py.

(** What [requests.get] hands back: [status_code] and the outcome of
    [response.json()] ([None] when the body is not JSON and the call
    raises). *)
Record response : Type := Response {
  status_code : Z;
  json : option string }.

(** The exceptions of the run.  [ConnectionError] stands for
    [requests.exceptions.ConnectionError] and its subclasses; everything
    else that derives from [Exception] (timeouts, a JSON decoding error)
    is [OtherError] with its message. *)
Inductive exn : Type :=
  | ConnectionError
  | OtherError (msg : string).

(** The outcome of one GET. *)
Inductive reply : Type :=
  | Answers (r : response)
  | Fails (e : exn).

(** One constructor per [print] of the script. *)
Inductive line : Type :=
  | TestingBackend (url : string)   (* Testing backend at {backend_url}... *)
  | HealthCheck (code : Z)          (* Health check: {status_code} *)
  | BackendHealthy                  (* Backend is healthy *)
  | ResponseJson (body : string)    (* Response: {response.json()} *)
  | BackendStatus (code : Z)        (* Backend returned status {status_code} *)
  | ApiInfoCheck (code : Z)         (* API info check: {status_code} *)
  | ApiAccessible                   (* API is accessible *)
  | ApiStatus (code : Z)            (* API returned status {status_code} *)
  | CannotConnect                   (* Cannot connect to backend - is it running? *)
  | StartHint                       (* Start the backend with: cd backend && ... *)
  | ErrorLine (e : exn).            (* Error: {e} *)

(** The observable state of a run: the URLs requested so far and the lines
    printed so far. *)
Record world : Type := World {
  requested : list string;
  stdout : list line }.

Definition print (l : line) : M world exn unit :=
  modify (fun w => World (requested w) (stdout w ++ [l])).

Section Probe.

(** The service: what a GET of each URL yields during the run. *)
Variable net : string -> reply.

(** [requests.get(url, timeout=5)] *)
Definition get (url : string) : M world exn response :=
  fun w =>
    let w' := World (requested w ++ [url]) (stdout w) in
    match net url with
    | Answers r => (Ret r, w')
    | Fails e => (Raised e, w')
    end.

(** [response.json()] *)
Definition json_of (r : response) : M world exn string :=
  match json r with
  | Some body => ret body
  | None => raise (OtherError "JSONDecodeError")
  end.

Definition is_connection_error (e : exn) : bool :=
  match e with ConnectionError => true | OtherError _ => false end.

Definition backend_url : string := "http://localhost:8000".

Definition test_backend : M world exn bool :=
  print (TestingBackend backend_url) ;;
  try_except
    (try_except
       ((* Test health endpoint *)
        response ← get (backend_url +:+ "/health");
        print (HealthCheck (status_code response)) ;;
        if (status_code response =? 200)%Z then
          print BackendHealthy ;;
          body ← json_of response;
          print (ResponseJson body) ;;
          (* Test API info endpoint *)
          response ← get (backend_url +:+ "/api/v1/");
          print (ApiInfoCheck (status_code response)) ;;
          (if (status_code response =? 200)%Z then
             print ApiAccessible ;;
             body ← json_of response;
             print (ResponseJson body)
           else
             print (ApiStatus (status_code response))) ;;
          ret true
        else
          print (BackendStatus (status_code response)) ;;
          ret false)
       is_connection_error
       (fun _ => print CannotConnect ;; print StartHint ;; ret false))
    (fun _ => true)
    (fun e => print (ErrorLine e) ;; ret false).

(** [success = test_backend(); sys.exit(0 if success else 1)].  An
    exception that escapes the function would end the process with
    status 1 as well. *)
Definition exit_code (r : result exn bool) : Z :=
  match r with
  | Ret true => 0
  | Ret false => 1
  | Raised _ => 1
  end.

(** The run of the script from a fresh process. *)
Definition run : result exn bool * world := test_backend (World [] []).

Definition script : Z := exit_code (fst run).

End Probe.

Definition health_url : string := backend_url +:+ "/health".
Definition api_url : string := backend_url +:+ "/api/v1/".

Definition in_2xx (code : Z) : bool := ((200 <=? code) && (code <? 300))%Z.

End Backend.


(* ===================================================================== *)
(** * Normal forms and overlap checks for the replacement table         *)
(* ===================================================================== *)

Module TableCheck.

Import Re FixSwift.

(** Some text of [sigma] occurs in [t]. *)
Definition occurs (sigma : list text) (t : text) : bool :=
  existsb (fun o => substr o t) sigma.

(** [chk_left sigma m r a u']: [a ++ u'] is a text of [sigma].  For every
    way an occurrence of [m] can begin inside it, at [u'] or later, the
    text with [r] in place of [m] still holds a text of [sigma]. *)
Fixpoint chk_left (sigma : list text) (m r a u' : text) : bool :=
  match u' with
  | [] => true
  | x :: u'' =>
      (if starts_with u' m then occurs sigma (a ++ r)
       else if starts_with m u'
            then occurs sigma (a ++ r ++ drop (length m) u')
            else true)
      && chk_left sigma m r (a ++ [x]) u''
  end.

(** [chk_right sigma u r m']: the same for an occurrence of [m] that
    begins before [u]; [m'] is the part of [m] from the start of [u] on. *)
Fixpoint chk_right (sigma : list text) (u r m' : text) : bool :=
  match m' with
  | [] => true
  | x :: m'' =>
      (if starts_with m' u then occurs sigma (r ++ drop (length m') u)
       else if starts_with u m' then occurs sigma r
            else true)
      && chk_right sigma u r m''
  end.

(** Replacing one occurrence of [m] by [r] keeps, whatever the text
    around, an occurrence of some text of [sigma]. *)
Definition replace_ok (sigma : list text) (m r : text) : bool :=
  forallb (fun u => chk_left sigma m r [] u && chk_right sigma u r (tail m))
    sigma.

(** [norm_aux in_ws t]: every maximal run of whitespace of [t] becomes one
    space; [in_ws] says that the text before [t] ends with whitespace. *)
Fixpoint norm_aux (in_ws : bool) (t : text) : text :=
  match t with
  | [] => []
  | c :: t' =>
      if is_space c then
        if in_ws then norm_aux true t' else 32%N :: norm_aux true t'
      else c :: norm_aux false t'
  end.

(** The normal form of a text. *)
Definition norm (t : text) : text := norm_aux false t.

(** Whether the text ends with whitespace. *)
Fixpoint ends_ws (in_ws : bool) (t : text) : bool :=
  match t with
  | [] => in_ws
  | c :: t' => ends_ws (is_space c) t'
  end.

(** The text a pattern matches, with one space for every [\s+]. *)
Fixpoint canon_aux (in_ws : bool) (p : list atom) : text * bool :=
  match p with
  | [] => ([], in_ws)
  | Lit c :: p' =>
      if is_space c then
        let (t, b) := canon_aux true p' in
        (if in_ws then t else 32%N :: t, b)
      else
        let (t, b) := canon_aux false p' in (c :: t, b)
  | Spaces1 :: p' =>
      let (t, b) := canon_aux true p' in
      (if in_ws then t else 32%N :: t, b)
  | WordB :: p' => canon_aux in_ws p'
  end.

(** A pattern with a literal or [\s+] never matches the empty text. *)
Definition consumes (p : list atom) : bool :=
  existsb (fun a => match a with WordB => false | _ => true end) p.

(** The normal form of what [p] matches does not depend on the text
    before the match, and the match ends with a non-space character. *)
Definition stable (p : list atom) : bool :=
  bool_decide (canon_aux true p = canon_aux false p)
  && negb (canon_aux false p).2.

(** The normal form of every match of [p]. *)
Definition canon (p : list atom) : text := (canon_aux false p).1.

(** A replacement text that is its own normal form. *)
Definition clean_text (r : text) : bool :=
  stable (map Lit r) && bool_decide (canon (map Lit r) = r).

(** Patterns without [\b] in which every [\s+] is followed by a
    non-space literal: a match exists wherever the normal form shows it. *)
Fixpoint plain (q : list atom) : bool :=
  match q with
  | [] => true
  | Lit c :: q' => negb (is_space c) && plain q'
  | Spaces1 :: q' =>
      match q' with
      | Lit _ :: _ => plain q'
      | _ => false
      end
  | WordB :: _ => false
  end.

(** The pattern begins with a non-space literal. *)
Definition head_lit (q : list atom) : bool :=
  match q with
  | Lit c :: _ => negb (is_space c)
  | _ => false
  end.

(** No whitespace in [w]. *)
Definition space_free (w : text) : bool :=
  forallb (fun c => negb (is_space c)) w.

(** The last word of a replacement: ["public func create"] gives
    ["create"]. *)
Definition word_of (r : text) : text :=
  fold_left (fun acc c => if (c =? 32)%N then [] else acc ++ [c]) r [].

(** The split form of a word: ["create"] gives ["cpublic reate"]. *)
Definition fragment (w : text) : text :=
  match w with
  | [] => []
  | x :: rest => x :: lit "public " ++ rest
  end.

(** What is known to occur in the text: the word or its split form, and
    after the pass that joins the split form, the word. *)
Definition known (w : text) (joined : bool) : list text :=
  if joined then [w] else [w; fragment w].

(** [run_check w joined table]: every pass of [table] keeps an occurrence
    of [known w _], and one pass of it joins [fragment w] into [w]. *)
Fixpoint run_check (w : text) (joined : bool) (table : list (string * string))
  : bool :=
  match table with
  | [] => joined
  | (pattern, replacement) :: table' =>
      let q := compile pattern in
      consumes q && clean_text (lit replacement) &&
      if negb joined && bool_decide (lit replacement = w) then
        bool_decide (canon q = fragment w) && plain q && head_lit q
        && run_check w true table'
      else
        stable q && replace_ok (known w joined) (canon q) (lit replacement)
        && run_check w joined table'
  end.

(** The checks for one entry of the table: its pattern shows the split
    form of its word, and the passes of the table keep the word. *)
Definition entry_ok (entry : string * string) : bool :=
  let w := word_of (lit entry.2) in
  stable (compile entry.1)
  && substr (fragment w) (canon (compile entry.1))
  && space_free w && negb (bool_decide (w = []))
  && run_check w false replacements.

(** The pattern of an entry shows [public] in what it matches. *)
Definition shows_public (entry : string * string) : bool :=
  stable (compile entry.1) && substr (lit "public") (canon (compile entry.1)).

(** The replacement of an entry is not longer than the shortest match of
    its pattern. *)
Definition shrinks (entry : string * string) : bool :=
  let q := compile entry.1 in
  consumes q && stable q
  && bool_decide (length (lit entry.2) <= length (canon q))%nat.

End TableCheck.


(* ===================================================================== *)
(** * Properties of the connectivity probe                                *)
(* ===================================================================== *)

Module BackendProofs.

Import Py Backend.

(** A service whose health endpoint is fine and whose API root is gone. *)
Definition api_missing (url : string) : reply :=
  if String.eqb url health_url then Answers (Response 200 (Some "{}"))
  else Answers (Response 404 None).

(** A service nobody listens for. *)
Definition nobody_listens (url : string) : reply := Fails ConnectionError.

(** A service that is up but unhealthy. *)
Definition unhealthy (url : string) : reply := Answers (Response 503 None).

Ltac probe_urls :=
  change (backend_url +:+ "/health") with health_url in *;
  change (backend_url +:+ "/api/v1/") with api_url in *.

Ltac which_url Hin :=
  repeat match type of Hin with
         | _ ∈ _ :: _ => apply elem_of_cons in Hin as [->|Hin]
         | _ ∈ [] => apply elem_of_nil in Hin; destruct Hin
         end.

Ltac run_probe :=
  cbv [script run test_backend try_except get json_of print modify
       mbind mret M_bind M_ret bind ret raise];
  cbn; probe_urls.

(** The function never lets an exception escape. *)
Lemma test_backend_returns (net : string -> reply) :
  exists b, fst (run net) = Ret b.
Proof.
  run_probe.
  destruct (net health_url) as [[c j]|e]; cbn.
  - destruct (c =? 200)%Z; cbn; [|eauto].
    destruct j as [body|]; cbn; [|eauto].
    destruct (net api_url) as [[c' j']|e']; cbn.
    + destruct (c' =? 200)%Z; cbn; [|eauto].
      destruct j'; cbn; eauto.
    + destruct e'; cbn; eauto.
  - destruct e; cbn; eauto.
Qed.

(** A healthy service with any non-200 answer of the API root: the run
    reports the bad status and still succeeds. *)
Lemma api_status_is_ignored (net : string -> reply) (body : string) (r : response) :
  net health_url = Answers (Response 200 (Some body)) ->
  net api_url = Answers r ->
  status_code r <> 200%Z ->
  run net =
    (Ret true,
     World [health_url; api_url]
       [TestingBackend backend_url; HealthCheck 200; BackendHealthy;
        ResponseJson body; ApiInfoCheck (status_code r);
        ApiStatus (status_code r)]).
Proof.
  intros Hh Ha Hc. run_probe. rewrite Hh. cbn. rewrite Ha. cbn.
  destruct (Z.eqb_spec (status_code r) 200); [contradiction|]. reflexivity.
Qed.

(** C1 (evaluation at the failing input): with [/health] answering 200 and
    [/api/v1/] answering 404, a status outside the 2xx range, both requests
    complete without raising and [test_backend] still returns [True]: the
    process exits with status 0. *)
Theorem C1_api_failure_reported_as_success :
  api_missing api_url = Answers (Response 404 None) /\
  in_2xx 404 = false /\
  fst (run api_missing) = Ret true /\
  requested (snd (run api_missing)) = [health_url; api_url] /\
  script api_missing = 0%Z.
Proof. repeat split; reflexivity. Qed.

(** C2: when the GET of [/health] completes with a status outside the 2xx
    range, [test_backend] returns [False] and [/health] is the only URL
    ever requested: the GET of [/api/v1/] is not issued. *)
Theorem C2_unhealthy_short_circuits (net : string -> reply) (r : response) :
  net health_url = Answers r ->
  in_2xx (status_code r) = false ->
  run net =
    (Ret false,
     World [health_url]
       [TestingBackend backend_url; HealthCheck (status_code r);
        BackendStatus (status_code r)])
  /\ api_url ∉ requested (snd (run net)).
Proof.
  intros Hh Hc.
  assert (Hrun : run net =
    (Ret false,
     World [health_url]
       [TestingBackend backend_url; HealthCheck (status_code r);
        BackendStatus (status_code r)])).
  { run_probe. rewrite Hh. cbn.
    destruct (Z.eqb_spec (status_code r) 200) as [E|]; [|reflexivity].
    rewrite E in Hc. discriminate. }
  split; [exact Hrun|].
  rewrite Hrun. cbn. intros Hin.
  apply list_elem_of_singleton in Hin. discriminate.
Qed.

Lemma C2_unhealthy_short_circuits_witness :
  run unhealthy =
    (Ret false,
     World [health_url]
       [TestingBackend backend_url; HealthCheck 503; BackendStatus 503])
  /\ api_url ∉ requested (snd (run unhealthy)).
Proof.
  apply (C2_unhealthy_short_circuits unhealthy (Response 503 None));
    reflexivity.
Defined.

(** C8: whenever a request issued by the run raises a connection error,
    [test_backend] prints the two lines of the connection-specific message
    last, returns [False], and the process exits with status 1; and in
    every run the exit status is 0 exactly when [test_backend] returns
    [True]. *)
Theorem C8_connection_error_reported (net : string -> reply) :
  (script net = 0%Z <-> fst (run net) = Ret true) /\
  ((exists url, url ∈ requested (snd (run net)) /\ net url = Fails ConnectionError) ->
   fst (run net) = Ret false /\
   (exists before, stdout (snd (run net)) = before ++ [CannotConnect; StartHint]) /\
   script net = 1%Z).
Proof.
  split.
  - unfold script. destruct (test_backend_returns net) as [b ->].
    destruct b; cbn; split; intros H; try reflexivity; discriminate.
  - intros (url & Hin & Hurl). revert Hin. run_probe.
    destruct (net health_url) as [[c j]|e] eqn:Hh; cbn.
    + destruct (c =? 200)%Z; cbn.
      * destruct j as [body|]; cbn.
        -- destruct (net api_url) as [[c' j']|e'] eqn:Ha; cbn.
           ++ destruct (c' =? 200)%Z; cbn; [destruct j'; cbn|];
                intros Hin; which_url Hin; congruence.
           ++ destruct e'; cbn; intros Hin; which_url Hin; try congruence.
              repeat split; eauto. by eexists [_; _; _; _].
        -- intros Hin; which_url Hin; congruence.
      * intros Hin; which_url Hin; congruence.
    + destruct e; cbn; intros Hin; which_url Hin; try congruence.
      repeat split; eauto. by eexists [_].
Qed.

Lemma C8_connection_error_reported_witness :
  (script nobody_listens = 0%Z <-> fst (run nobody_listens) = Ret true) /\
  fst (run nobody_listens) = Ret false /\
  (exists before,
     stdout (snd (run nobody_listens)) = before ++ [CannotConnect; StartHint]) /\
  script nobody_listens = 1%Z.
Proof.
  destruct (C8_connection_error_reported nobody_listens) as [Hiff Hconn].
  split; [exact Hiff|].
  apply Hconn. exists health_url. split; [|reflexivity].
  vm_compute. apply list_elem_of_here.
Defined.

End BackendProofs.

(* ===================================================================== *)
(** * More on the connectivity probe                                    *)
(* ===================================================================== *)

Module ProbeProofs.

Import Py Backend BackendProofs.

(** The API root answers 200 with a body that is not JSON. *)
Definition api_not_json (url : string) : reply :=
  if String.eqb url health_url then Answers (Response 200 (Some "{}"))
  else Answers (Response 200 None).

(** The API root times out. *)
Definition api_times_out (url : string) : reply :=
  if String.eqb url health_url then Answers (Response 200 (Some "{}"))
  else Fails (OtherError "ReadTimeout").

(** X4: the process exits with status 0 exactly when [/health] answers
    200 with a JSON body and [/api/v1/] answers at all, with a JSON body
    if its status is 200. *)
Theorem exit_status_zero_iff (net : string -> reply) :
  script net = 0%Z <->
  exists rh ra,
    net health_url = Answers rh /\ status_code rh = 200%Z
    /\ is_Some (json rh)
    /\ net api_url = Answers ra
    /\ (status_code ra = 200%Z -> is_Some (json ra)).
Proof.
  run_probe.
  destruct (net health_url) as [[c j]|e] eqn:Hh; cbn.
  - destruct (Z.eqb_spec c 200) as [->|Hc]; cbn.
    + destruct j as [body|]; cbn.
      * destruct (net api_url) as [[c' j']|e'] eqn:Ha; cbn.
        -- destruct (Z.eqb_spec c' 200) as [->|Hc']; cbn.
           ++ destruct j' as [body'|]; cbn; split; try done.
              ** intros _. eexists _, _. repeat split; eauto.
              ** intros (rh & ra & _ & _ & _ & [= <-] & Hj).
                 by destruct (Hj eq_refl).
           ++ split; [|done]. intros _. eexists _, _.
              repeat split; eauto. cbn. done.
        -- destruct e'; cbn; split; try done;
             by intros (? & ? & _ & _ & _ & ? & _).
      * split; [done|]. intros (rh & ra & [= <-] & _ & [? Hj] & _).
        discriminate Hj.
    + split; [done|]. by intros (rh & ra & [= <-] & ? & _).
  - destruct e; cbn; split; try done; by intros (? & ? & ? & _).
Qed.

(** X5: the probe never raises; it requests [/health] first and
    [/api/v1/] after it, nothing else, and [/api/v1/] exactly when
    [/health] answered 200 with a JSON body. *)
Theorem requests_in_order (net : string -> reply) :
  (exists b, (run net).1 = Ret b)
  /\ (requested (run net).2 = [health_url]
      \/ requested (run net).2 = [health_url; api_url])
  /\ (api_url ∈ requested (run net).2 <->
      exists rh, net health_url = Answers rh /\ status_code rh = 200%Z
                 /\ is_Some (json rh)).
Proof.
  assert (Hne : api_url ∈ [health_url] -> False).
  { intros [Heq|Hin]%elem_of_cons; [discriminate Heq|].
    by apply elem_of_nil in Hin. }
  split; [apply test_backend_returns|]. run_probe.
  destruct (net health_url) as [[c j]|e] eqn:Hh; cbn.
  - destruct (Z.eqb_spec c 200) as [->|Hc]; cbn.
    + destruct j as [body|]; cbn.
      * assert (Hyes : exists rh,
                  Answers (Response 200 (Some body)) = Answers rh
                  /\ status_code rh = 200%Z /\ is_Some (json rh))
          by (eexists; repeat split; eauto).
        assert (Hin : api_url ∈ [health_url; api_url])
          by apply list_elem_of_further, list_elem_of_here.
        destruct (net api_url) as [[c' j']|e'] eqn:Ha; cbn.
        -- destruct (c' =? 200)%Z; cbn; [destruct j'; cbn|];
             (split; [by right|]); split; intros; done.
        -- destruct e'; cbn; (split; [by right|]); split; intros; done.
      * split; [by left|]. split.
        -- intros Hin. by destruct Hne.
        -- intros (rh & [= <-] & _ & [? Hj]). discriminate Hj.
    + split; [by left|]. split.
      * intros Hin. by destruct Hne.
      * by intros (rh & [= <-] & ? & _).
  - destruct e; cbn; (split; [by left|]); split;
      try (intros Hin; by destruct Hne); by intros (? & ? & _).
Qed.

(** X6: a request that raises anything other than a connection error (a
    timeout, say) makes the probe print the error as its last line and
    return [False]; the process exits with status 1. *)
Theorem other_error_reported (net : string -> reply) (url msg : string) :
  url ∈ requested (run net).2 ->
  net url = Fails (OtherError msg) ->
  (run net).1 = Ret false
  /\ (exists before,
        stdout (run net).2 = before ++ [ErrorLine (OtherError msg)])
  /\ script net = 1%Z.
Proof.
  intros Hin Hurl. revert Hin. run_probe.
  destruct (net health_url) as [[c j]|e] eqn:Hh; cbn.
  - destruct (c =? 200)%Z; cbn.
    + destruct j as [body|]; cbn.
      * destruct (net api_url) as [[c' j']|e'] eqn:Ha; cbn.
        -- destruct (c' =? 200)%Z; cbn; [destruct j'; cbn|];
             intros Hin; which_url Hin; congruence.
        -- destruct e'; cbn; intros Hin; which_url Hin; try congruence.
           assert (msg0 = msg) as -> by congruence.
           repeat split; eauto. by eexists [_; _; _; _].
      * intros Hin; which_url Hin; congruence.
    + intros Hin; which_url Hin; congruence.
  - destruct e; cbn; intros Hin; which_url Hin; try congruence.
    assert (msg0 = msg) as -> by congruence.
    repeat split; eauto. by eexists [_].
Qed.

Lemma other_error_reported_witness :
  (run api_times_out).1 = Ret false
  /\ (exists before,
        stdout (run api_times_out).2
        = before ++ [ErrorLine (OtherError "ReadTimeout")])
  /\ script api_times_out = 1%Z.
Proof.
  apply (other_error_reported api_times_out api_url "ReadTimeout").
  - vm_compute. apply list_elem_of_further, list_elem_of_here.
  - reflexivity.
Defined.

(** X7: a 200 answer whose body is not JSON fails the probe after the
    success line of that endpoint has been printed: for [/health] the API
    root is not requested at all. *)
Theorem undecodable_body_fails (net : string -> reply) (rh : response) :
  net health_url = Answers rh ->
  status_code rh = 200%Z ->
  (json rh = None ->
   run net =
     (Ret false,
      World [health_url]
        [TestingBackend backend_url; HealthCheck 200; BackendHealthy;
         ErrorLine (OtherError "JSONDecodeError")]))
  /\ (forall body ra,
        json rh = Some body ->
        net api_url = Answers ra ->
        status_code ra = 200%Z -> json ra = None ->
        run net =
          (Ret false,
           World [health_url; api_url]
             [TestingBackend backend_url; HealthCheck 200; BackendHealthy;
              ResponseJson body; ApiInfoCheck 200; ApiAccessible;
              ErrorLine (OtherError "JSONDecodeError")])).
Proof.
  intros Hh Hc. destruct rh as [c j]. cbn in Hc. subst c. split.
  - cbn. intros ->. run_probe. rewrite Hh. reflexivity.
  - cbn. intros body [c' j'] -> Ha Hc' Hj. cbn in Hc', Hj. subst.
    run_probe. rewrite Hh. cbn. rewrite Ha. reflexivity.
Qed.

Lemma undecodable_body_fails_witness :
  run api_not_json =
    (Ret false,
     World [health_url; api_url]
       [TestingBackend backend_url; HealthCheck 200; BackendHealthy;
        ResponseJson "{}"; ApiInfoCheck 200; ApiAccessible;
        ErrorLine (OtherError "JSONDecodeError")]).
Proof.
  destruct (undecodable_body_fails api_not_json (Response 200 (Some "{}"))
              eq_refl eq_refl) as [_ Hapi].
  exact (Hapi "{}" (Response 200 None) eq_refl eq_refl eq_refl eq_refl).
Defined.

End ProbeProofs.

(* ===================================================================== *)
(** * Properties of the regular-expression engine                         *)
(* ===================================================================== *)

Module ReProofs.

Import Re.

Section Engine.

Variable uni_alnum : N -> bool.

Local Abbreviation match_here := (match_here uni_alnum).
Local Abbreviation search_from := (search_from uni_alnum).
Local Abbreviation sub_scan := (sub_scan uni_alnum).

(** Where [re.search] finds nothing, [re.sub] copies the subject. *)
Lemma sub_scan_no_match (p : list atom) (repl : text) (s : text) :
  forall prev, search_from p prev s = false -> sub_scan p repl 0 prev s = s.
Proof.
  induction s as [|c s IH]; intros prev; cbn [Re.search_from Re.sub_scan].
  - destruct (match_here p prev []); [discriminate|reflexivity].
  - destruct (match_here p prev (c :: s)); [discriminate|].
    intros H. rewrite (IH _ H). reflexivity.
Qed.

Lemma re_sub_no_match (pattern repl : string) (s : text) :
  re_search uni_alnum pattern s = false -> re_sub uni_alnum pattern repl s = s.
Proof. apply sub_scan_no_match. Qed.

End Engine.

End ReProofs.

(* ===================================================================== *)
(** * Properties of the repair transform                                  *)
(* ===================================================================== *)

Module TransformProofs.

Import Re FixSwift ReProofs.

(** No pattern of a table has a match in [s]. *)
Definition clean (uni_alnum : N -> bool) (table : list (string * string))
    (s : text) : Prop :=
  forall pattern replacement,
    (pattern, replacement) ∈ table -> re_search uni_alnum pattern s = false.

Lemma fold_sub_clean (uni_alnum : N -> bool) (table : list (string * string))
    (s : text) :
  clean uni_alnum table s ->
  fold_left
    (fun modified '(pattern, replacement) =>
       re_sub uni_alnum pattern replacement modified)
    table s = s.
Proof.
  induction table as [|[pattern replacement] table IH]; intros Hclean;
    [reflexivity|].
  cbn [fold_left]. rewrite re_sub_no_match.
  - apply IH. intros p r Hin. apply (Hclean p r). by apply list_elem_of_further.
  - apply (Hclean pattern replacement). apply list_elem_of_here.
Qed.

(** The input on which a second pass still finds work. *)
Definition twice_broken : text := lit "cpublic reatpublic est".

Lemma second_pass_changes (uni_alnum : N -> bool) :
  fix_malformed_code uni_alnum twice_broken = lit "cpublic reatest" /\
  fix_malformed_code uni_alnum (fix_malformed_code uni_alnum twice_broken)
    = lit "createst".
Proof. split; vm_compute; reflexivity. Qed.

(** C4: on a text in which none of the listed patterns has a match, the
    transform is the identity. *)
Theorem C4_identity_on_clean_input (uni_alnum : N -> bool) (s : text) :
  clean uni_alnum replacements s ->
  fix_malformed_code uni_alnum s = s.
Proof. apply fold_sub_clean. Qed.

Lemma C4_identity_on_clean_input_witness :
  fix_malformed_code (fun _ => false) (lit "public func createProject()")
  = lit "public func createProject()".
Proof.
  apply (C4_identity_on_clean_input (fun _ => false)).
  intros pattern replacement Hin.
  repeat (apply elem_of_cons in Hin as [Heq|Hin];
          [injection Heq as -> ->; vm_compute; reflexivity|]).
  by apply elem_of_nil in Hin.
Defined.

(** C3 (counterexample): the transform is not idempotent.  On
    ["cpublic reatpublic est"] the first pass joins [t] and [est] into
    ["cpublic reatest"], in which the earlier pattern [cpublic\s+reate] now
    matches; the second pass rewrites it to ["createst"]. *)
Lemma C3_not_idempotent :
  ~ (forall (uni_alnum : N -> bool) (s : text),
       fix_malformed_code uni_alnum (fix_malformed_code uni_alnum s)
       = fix_malformed_code uni_alnum s).
Proof.
  intros H. specialize (H (fun _ => false) twice_broken).
  destruct (second_pass_changes (fun _ => false)) as [H1 H2].
  rewrite H2, H1 in H. discriminate H.
Qed.

(** C3 (amended): a second pass changes nothing whenever the output of the
    first pass contains no match of any listed pattern. *)
Theorem C3_idempotent_on_clean_output (uni_alnum : N -> bool) (s : text) :
  clean uni_alnum replacements (fix_malformed_code uni_alnum s) ->
  fix_malformed_code uni_alnum (fix_malformed_code uni_alnum s)
  = fix_malformed_code uni_alnum s.
Proof. apply fold_sub_clean. Qed.

Lemma C3_idempotent_on_clean_output_witness :
  let once := fix_malformed_code (fun _ => false)
                (lit "func cpublic reateProject()") in
  once = lit "public func createProject()" /\
  fix_malformed_code (fun _ => false) once = once.
Proof.
  split; [vm_compute; reflexivity|].
  apply (C3_idempotent_on_clean_output (fun _ => false)).
  intros pattern replacement Hin.
  repeat (apply elem_of_cons in Hin as [Heq|Hin];
          [injection Heq as -> ->; vm_compute; reflexivity|]).
  by apply elem_of_nil in Hin.
Defined.

End TransformProofs.

(* ===================================================================== *)
(** * The corrected word reaches the output                              *)
(* ===================================================================== *)

Module FragmentProofs.

Import Re FixSwift ReProofs TransformProofs TableCheck.

(** ** Occurrences of one text in another *)

Lemma starts_with_iff (u t : text) :
  starts_with u t = true <-> exists z, t = u ++ z.
Proof.
  revert t. induction u as [|a u IH]; intros t; cbn.
  - split; [eauto|done].
  - destruct t as [|b t]; cbn.
    + split; [done|]. intros [z Hz]. discriminate.
    + rewrite andb_true_iff, N.eqb_eq, IH. split.
      * intros [-> [z ->]]. eauto.
      * intros [z [= -> ->]]. eauto.
Qed.

Lemma substr_iff (u t : text) :
  substr u t = true <-> exists t1 t2, t = t1 ++ u ++ t2.
Proof.
  induction t as [|b t IH]; cbn [substr]; rewrite orb_true_iff, starts_with_iff.
  - split.
    + intros [[z Hz]|]; [|done]. exists [], z. done.
    + intros (t1 & t2 & H). left. symmetry in H.
      apply app_eq_nil in H as [-> H]. apply app_eq_nil in H as [-> ->].
      by exists [].
  - rewrite IH. split.
    + intros [[z Hz]|(t1 & t2 & ->)].
      * exists [], z. done.
      * exists (b :: t1), t2. done.
    + intros (t1 & t2 & H). destruct t1 as [|c t1]; cbn in H.
      * left. eauto.
      * right. injection H as -> ->. eauto.
Qed.

Lemma substr_app (u a t b : text) :
  substr u t = true -> substr u (a ++ t ++ b) = true.
Proof.
  rewrite !substr_iff. intros (t1 & t2 & ->).
  exists (a ++ t1), (t2 ++ b). by rewrite <- !app_assoc.
Qed.

Lemma occurs_app (sigma : list text) (a t b : text) :
  occurs sigma t = true -> occurs sigma (a ++ t ++ b) = true.
Proof.
  unfold occurs. rewrite !existsb_exists. intros (o & Hin & Ho).
  exists o. split; [done|]. by apply substr_app.
Qed.

Lemma occurs_elem (sigma : list text) (u t : text) :
  In u sigma -> substr u t = true -> occurs sigma t = true.
Proof. intros Hin Hu. apply existsb_exists. eauto. Qed.

(** ** Replacing one occurrence of [m] by [r]

    [chk_left] inspects every way an occurrence of [u] can begin before
    or at the start of the replaced segment and run into it; [chk_right]
    every way it can begin inside the segment. *)

Lemma chk_left_sound (sigma : list text) (m r : text) :
  forall u0 a0, chk_left sigma m r a0 u0 = true ->
  forall a u' z, u0 = a ++ u' -> u' <> [] ->
    (m = u' ++ z -> occurs sigma ((a0 ++ a) ++ r) = true) /\
    (u' = m ++ z -> occurs sigma ((a0 ++ a) ++ r ++ z) = true).
Proof.
  induction u0 as [|x u0 IH]; intros a0 Hc a u' z Hu Hne.
  { symmetry in Hu. apply app_eq_nil in Hu as [_ ->]. done. }
  cbn [chk_left] in Hc. apply andb_true_iff in Hc as [Hhere Hrest].
  destruct a as [|y a]; cbn in Hu.
  - subst u'. rewrite app_nil_r. split.
    + intros Hm.
      rewrite (proj2 (starts_with_iff (x :: u0) m)) in Hhere by eauto.
      done.
    + intros Hm.
      destruct (starts_with (x :: u0) m) eqn:E1.
      * apply starts_with_iff in E1 as [z' Hz']. rewrite Hm in Hz'.
        rewrite <- app_assoc in Hz'.
        rewrite <- (app_nil_r m) in Hz' at 1.
        apply app_inv_head in Hz'. symmetry in Hz'.
        apply app_eq_nil in Hz' as [-> _].
        by rewrite app_nil_r.
      * rewrite (proj2 (starts_with_iff m (x :: u0))) in Hhere by eauto.
        rewrite Hm, drop_app_length in Hhere. done.
  - injection Hu as -> ->.
    destruct (IH (a0 ++ [y]) Hrest a u' z eq_refl Hne) as [H1 H2].
    rewrite <- !app_assoc in H1, H2. cbn in H1, H2.
    rewrite <- !app_assoc. cbn. done.
Qed.

Lemma chk_right_sound (sigma : list text) (u r : text) :
  forall m0, chk_right sigma u r m0 = true ->
  forall d m' z, m0 = d ++ m' -> m' <> [] ->
    (u = m' ++ z -> occurs sigma (r ++ z) = true) /\
    (m' = u ++ z -> occurs sigma r = true).
Proof.
  induction m0 as [|x m0 IH]; intros Hc d m' z Hm Hne.
  { symmetry in Hm. apply app_eq_nil in Hm as [_ ->]. done. }
  cbn [chk_right] in Hc. apply andb_true_iff in Hc as [Hhere Hrest].
  destruct d as [|y d]; cbn in Hm.
  - subst m'. split.
    + intros Hu.
      rewrite (proj2 (starts_with_iff (x :: m0) u)) in Hhere by eauto.
      rewrite Hu, drop_app_length in Hhere. done.
    + intros Hm.
      destruct (starts_with (x :: m0) u) eqn:E1.
      * apply starts_with_iff in E1 as [z' Hz']. rewrite Hz' in Hm.
        rewrite <- app_assoc in Hm.
        rewrite <- (app_nil_r (x :: m0)) in Hm at 1.
        apply app_inv_head in Hm. symmetry in Hm.
        apply app_eq_nil in Hm as [-> _].
        rewrite Hz', app_nil_r, drop_all, app_nil_r in Hhere. done.
      * rewrite (proj2 (starts_with_iff u (x :: m0))) in Hhere by eauto. done.
  - injection Hm as -> ->. by apply (IH Hrest d m' z).
Qed.

Lemma substr_nil (t : text) : substr [] t = true.
Proof. by destruct t. Qed.

Section Replace.

Variables (sigma : list text) (m r : text).

Hypothesis Hok : replace_ok sigma m r = true.

Lemma replace_from_left (u a t2 NR : text) :
  In u sigma -> u ++ t2 = a ++ m ++ NR ->
  occurs sigma (a ++ r ++ NR) = true.
Proof.
  intros Hin Heq.
  assert (Hc : chk_left sigma m r [] u = true).
  { unfold replace_ok in Hok. rewrite forallb_forall in Hok.
    by destruct (proj1 (andb_true_iff _ _) (Hok u Hin)) as [? _]. }
  apply app_eq_app in Heq as [l2 [[Hu Hm]|[Ha Ht]]].
  - (* the occurrence reaches beyond [a] *)
    destruct l2 as [|x l2].
    { rewrite app_nil_r in Hu. subst a.
      apply (occurs_elem sigma u); [done|].
      apply (substr_app u [] u (r ++ NR)).
      apply substr_iff. exists [], []. by rewrite app_nil_r. }
    apply app_eq_app in Hm as [l3 [[Hm Ht]|[Hl Hn]]].
    + destruct (chk_left_sound sigma m r u [] Hc a (x :: l2) l3 Hu
                  ltac:(done)) as [H1 _].
      specialize (H1 Hm). cbn in H1.
      rewrite app_assoc. rewrite <- (app_nil_l ((a ++ r) ++ NR)).
      by apply occurs_app.
    + destruct (chk_left_sound sigma m r u [] Hc a (x :: l2) l3 Hu
                  ltac:(done)) as [_ H2].
      specialize (H2 Hl). cbn in H2. subst NR.
      replace (a ++ r ++ l3 ++ t2) with ([] ++ (a ++ r ++ l3) ++ t2)
        by (cbn; by rewrite <- !app_assoc).
      by apply occurs_app.
  - (* the occurrence lies inside [a] *)
    subst a. apply (occurs_elem sigma u); [done|].
    rewrite <- app_assoc. apply (substr_app u [] u).
    apply substr_iff. exists [], []. by rewrite app_nil_r.
Qed.

Lemma replace_from_inside (u d t2 NR : text) :
  In u sigma -> d <> [] -> m ++ NR = d ++ u ++ t2 ->
  occurs sigma (r ++ NR) = true.
Proof.
  intros Hin Hd Heq.
  assert (Hc : chk_right sigma u r (tail m) = true).
  { unfold replace_ok in Hok. rewrite forallb_forall in Hok.
    by destruct (proj1 (andb_true_iff _ _) (Hok u Hin)) as [_ ?]. }
  assert (Hinside : substr u NR = true -> occurs sigma (r ++ NR) = true).
  { intros H. apply (occurs_elem sigma u); [done|].
    rewrite <- (app_nil_r NR). by apply substr_app. }
  apply app_eq_app in Heq as [l2 [[Hl Hn]|[Hd' Hn]]].
  - (* the occurrence begins inside the segment *)
    destruct l2 as [|x l2].
    { cbn in Hn. apply Hinside, substr_iff. exists [], t2. by rewrite <- Hn. }
    destruct d as [|y d]; [done|].
    assert (Htl : tail m = d ++ x :: l2) by (by rewrite Hl).
    apply app_eq_app in Hn as [l3 [[Hu Ht]|[Hl2 Ht]]].
    + destruct (chk_right_sound sigma u r (tail m) Hc d (x :: l2) l3 Htl
                  ltac:(done)) as [H1 _].
      specialize (H1 Hu). subst NR.
      rewrite app_assoc, <- (app_nil_l ((r ++ l3) ++ t2)).
      by apply occurs_app.
    + destruct (chk_right_sound sigma u r (tail m) Hc d (x :: l2) l3 Htl
                  ltac:(done)) as [_ H2].
      specialize (H2 Hl2).
      by apply (occurs_app sigma [] r NR).
  - (* [d] covers the segment *)
    apply Hinside, substr_iff. eauto.
Qed.

(** If the checks pass, replacing an occurrence of [m] by [r] anywhere
    keeps some text of [sigma] in the result. *)
Lemma replace_preserves (NL NR : text) :
  occurs sigma (NL ++ m ++ NR) = true -> occurs sigma (NL ++ r ++ NR) = true.
Proof.
  intros Hocc. apply existsb_exists in Hocc as (u & Hin & Hu).
  apply substr_iff in Hu as (t1 & t2 & Heq).
  apply app_eq_app in Heq as [l [[Hl Hm]|[Ht1 Hu]]].
  - (* the occurrence begins in [NL] *)
    subst NL. rewrite <- app_assoc.
    rewrite <- (app_nil_r (l ++ r ++ NR)). apply occurs_app.
    by apply (replace_from_left u l t2 NR).
  - destruct l as [|x l].
    + cbn in Hu. rewrite <- (app_nil_r (r ++ NR)). apply occurs_app.
      by apply (replace_from_left u [] t2 NR).
    + rewrite <- (app_nil_r (r ++ NR)). apply occurs_app.
      by apply (replace_from_inside u (x :: l) t2 NR).
Qed.

End Replace.

(** ** Whitespace runs collapsed *)

Lemma norm_aux_app (b : bool) (l z : text) :
  norm_aux b (l ++ z) = norm_aux b l ++ norm_aux (ends_ws b l) z.
Proof.
  revert b. induction l as [|c l IH]; intros b; cbn; [done|].
  destruct (is_space c); [destruct b|]; cbn; by rewrite IH.
Qed.

Lemma norm_aux_lits (b : bool) (t z : text) :
  norm_aux b (t ++ z)
  = (canon_aux b (map Lit t)).1 ++ norm_aux (canon_aux b (map Lit t)).2 z.
Proof.
  revert b. induction t as [|c t IH]; intros b; cbn; [done|].
  destruct (is_space c).
  - specialize (IH true). destruct (canon_aux true (map Lit t)) as [t' b'].
    cbn in *. destruct b; cbn; by rewrite IH.
  - specialize (IH false). destruct (canon_aux false (map Lit t)) as [t' b'].
    cbn in *. by rewrite IH.
Qed.

Section Matcher.

Variable uni_alnum : N -> bool.

Local Abbreviation match_here := (match_here uni_alnum).
Local Abbreviation search_from := (search_from uni_alnum).
Local Abbreviation sub_scan := (sub_scan uni_alnum).

Lemma match_here_spaces (p : list atom) (prev : option N) (c : N) (s : text) :
  match_here (Spaces1 :: p) prev (c :: s)
  = if is_space c then
      match match_here (Spaces1 :: p) prev s with
      | Some n => Some (S n)
      | None => S <$> match_here p (Some c) s
      end
    else None.
Proof. reflexivity. Qed.

Lemma match_here_spaces_nil (p : list atom) (prev : option N) :
  match_here (Spaces1 :: p) prev [] = None.
Proof. reflexivity. Qed.

(** What a successful match consumes, up to whitespace runs. *)
Lemma match_here_norm (p : list atom) :
  forall prev s n,
    match_here p prev s = Some n ->
    exists m R,
      s = m ++ R /\ length m = n /\
      forall b, norm_aux b (m ++ R)
                = (canon_aux b p).1 ++ norm_aux (canon_aux b p).2 R.
Proof.
  induction p as [|[c| |] p IH]; intros prev s n Hm.
  - injection Hm as <-. exists [], s. done.
  - destruct s as [|c' s]; [done|]. cbn in Hm.
    destruct (N.eqb_spec c c') as [<-|]; [|done].
    destruct (Re.match_here uni_alnum p (Some c) s) as [n'|] eqn:E; [|done].
    injection Hm as <-.
    destruct (IH _ _ _ E) as (m & R & -> & <- & Hn).
    exists (c :: m), R. split_and!; [done..|]. intros b. cbn.
    destruct (is_space c).
    + rewrite (Hn true). destruct (canon_aux true p). by destruct b.
    + rewrite (Hn false). by destruct (canon_aux false p).
  - revert n Hm. induction s as [|c s IHs]; intros n Hm; [done|].
    rewrite match_here_spaces in Hm.
    destruct (is_space c) eqn:Hc; [|done].
    destruct (Re.match_here uni_alnum (Spaces1 :: p) prev s) as [n'|] eqn:E.
    + injection Hm as <-.
      destruct (IHs n' eq_refl) as (m & R & -> & <- & Hn).
      exists (c :: m), R. split_and!; [done..|]. intros b. cbn. rewrite Hc.
      rewrite (Hn true). cbn. destruct (canon_aux true p). by destruct b.
    + destruct (Re.match_here uni_alnum p (Some c) s) as [n'|] eqn:E';
        [|done].
      injection Hm as <-.
      destruct (IH _ _ _ E') as (m & R & -> & <- & Hn).
      exists (c :: m), R. split_and!; [done..|]. intros b. cbn. rewrite Hc.
      rewrite (Hn true). destruct (canon_aux true p). by destruct b.
  - cbn in Hm. destruct (boundary uni_alnum prev s); [|done].
    by apply (IH prev).
Qed.

Lemma match_here_pos (p : list atom) :
  consumes p = true ->
  forall prev s n, match_here p prev s = Some n -> n <> 0%nat.
Proof.
  induction p as [|[c| |] p IH]; intros Hp prev s n Hm; [done|..].
  - destruct s as [|c' s]; [done|]. cbn in Hm.
    destruct (c =? c')%N; [|done].
    destruct (Re.match_here uni_alnum p (Some c') s); by simplify_eq/=.
  - destruct s as [|c s]; [done|]. rewrite match_here_spaces in Hm.
    destruct (is_space c); [|done].
    destruct (Re.match_here uni_alnum (Spaces1 :: p) prev s);
      [by simplify_eq|].
    destruct (Re.match_here uni_alnum p (Some c) s); by simplify_eq/=.
  - cbn in Hm. destruct (boundary uni_alnum prev s); [|done].
    by apply (IH Hp prev s).
Qed.

Lemma sub_scan_skip (p : list atom) (repl : text) :
  forall n s prev, (n <= length s)%nat ->
    exists prev', sub_scan p repl n prev s = sub_scan p repl 0 prev' (drop n s).
Proof.
  induction n as [|n IH]; intros s prev Hn; [by exists prev|].
  destruct s as [|c s]; cbn in Hn; [lia|].
  cbn [Re.sub_scan drop]. apply IH. lia.
Qed.

(** A property kept by the replacement of any one match is kept by the
    whole scan. *)
Lemma sub_scan_invariant (p : list atom) (repl : text) (P : text -> Prop) :
  consumes p = true ->
  (forall L prev s n,
     match_here p prev s = Some n -> P (L ++ s) -> P (L ++ repl ++ drop n s)) ->
  forall s L prev, P (L ++ s) -> P (L ++ sub_scan p repl 0 prev s).
Proof.
  intros Hp Hstep s.
  assert (Hall : forall k s, (length s <= k)%nat ->
            forall L prev, P (L ++ s) -> P (L ++ sub_scan p repl 0 prev s));
    [|by apply (Hall (length s))].
  clear s. induction k as [|k IH]; intros s Hk L prev HP.
  - destruct s; [|cbn in Hk; lia]. cbn.
    destruct (Re.match_here uni_alnum p prev []) as [n|] eqn:E; [|done].
    destruct (match_here_norm _ _ _ _ E) as (m & R & Hs & Hn & _).
    symmetry in Hs. apply app_eq_nil in Hs as [-> _].
    by destruct (match_here_pos p Hp _ _ _ E).
  - destruct s as [|c s].
    { cbn. destruct (Re.match_here uni_alnum p prev []) as [n|] eqn:E;
        [|done].
      destruct (match_here_norm _ _ _ _ E) as (m & R & Hs & Hn & _).
      symmetry in Hs. apply app_eq_nil in Hs as [-> _].
      by destruct (match_here_pos p Hp _ _ _ E). }
    cbn in Hk. cbn [Re.sub_scan].
    destruct (Re.match_here uni_alnum p prev (c :: s)) as [[|n]|] eqn:E.
    + by destruct (match_here_pos p Hp _ _ _ E).
    + destruct (match_here_norm _ _ _ _ E) as (m & R & Hs & Hn & _).
      assert (Hlen : (n <= length s)%nat).
      { apply (f_equal length) in Hs. rewrite length_app in Hs.
        cbn in Hs. lia. }
      destruct (sub_scan_skip p repl n s (Some c) Hlen) as [prev' ->].
      rewrite app_assoc. apply IH.
      * rewrite length_drop. lia.
      * rewrite <- app_assoc. by apply (Hstep L prev (c :: s) (S n)).
    + replace (L ++ c :: sub_scan p repl 0 (Some c) s)
        with ((L ++ [c]) ++ sub_scan p repl 0 (Some c) s)
        by (by rewrite <- app_assoc).
      apply IH; [lia|]. by rewrite <- app_assoc.
Qed.

(** The first replacement of a scan that finds a match. *)
Lemma sub_scan_has_repl (p : list atom) (repl : text) :
  consumes p = true ->
  forall s prev, search_from p prev s = true ->
    exists a b, sub_scan p repl 0 prev s = a ++ repl ++ b.
Proof.
  intros Hp. induction s as [|c s IH]; intros prev Hs;
    cbn [Re.search_from Re.sub_scan] in *.
  - destruct (Re.match_here uni_alnum p prev []); [|done].
    exists [], []. by rewrite app_nil_r.
  - destruct (Re.match_here uni_alnum p prev (c :: s)) as [[|n]|] eqn:E.
    + exists [], (c :: sub_scan p repl 0 (Some c) s). done.
    + exists [], (sub_scan p repl n (Some c) s). done.
    + destruct (IH _ Hs) as (a & b & ->). by exists (c :: a), b.
Qed.

Lemma stable_canon (p : list atom) (b : bool) :
  stable p = true -> canon_aux b p = (canon p, false).
Proof.
  unfold stable, canon. intros [H1 H2]%andb_true_iff.
  apply bool_decide_eq_true in H1. apply negb_true_iff in H2.
  destruct b; [rewrite H1|]; destruct (canon_aux false p); cbn in *;
    by subst.
Qed.

Lemma norm_aux_clean (r z : text) (b : bool) :
  clean_text r = true -> norm_aux b (r ++ z) = r ++ norm_aux false z.
Proof.
  intros [H1 H2]%andb_true_iff. apply bool_decide_eq_true in H2.
  rewrite norm_aux_lits, (stable_canon _ b H1). cbn. by rewrite H2.
Qed.

Lemma norm_match (p : list atom) (prev : option N) (s : text) (n : nat) :
  stable p = true ->
  match_here p prev s = Some n ->
  forall L, norm (L ++ s) = norm L ++ canon p ++ norm (drop n s).
Proof.
  intros Hst Hm L.
  destruct (match_here_norm _ _ _ _ Hm) as (m & R & -> & <- & Hn).
  unfold norm. rewrite norm_aux_app, Hn, (stable_canon _ _ Hst). cbn.
  by rewrite drop_app_length.
Qed.

Lemma pass_preserves (sigma : list text) (p : list atom) (repl : text) :
  consumes p = true -> stable p = true -> clean_text repl = true ->
  replace_ok sigma (canon p) repl = true ->
  forall s prev,
    occurs sigma (norm s) = true ->
    occurs sigma (norm (sub_scan p repl 0 prev s)) = true.
Proof.
  intros Hp Hst Hcl Hok s prev Hocc.
  apply (sub_scan_invariant p repl (fun t => occurs sigma (norm t) = true) Hp)
    with (L := []); [|done].
  clear s prev Hocc. intros L prev s n Hm Hocc.
  rewrite (norm_match p prev s n Hst Hm) in Hocc.
  unfold norm at 1. rewrite norm_aux_app, norm_aux_clean by done.
  by apply (replace_preserves sigma (canon p) repl Hok).
Qed.

(** A match somewhere shows in the normal form. *)
Lemma search_norm (p : list atom) :
  stable p = true ->
  forall s prev b,
    search_from p prev s = true -> substr (canon p) (norm_aux b s) = true.
Proof.
  intros Hst. induction s as [|c s IH]; intros prev b;
    cbn [Re.search_from].
  - destruct (Re.match_here uni_alnum p prev []) as [n|] eqn:E; [|done].
    intros _. destruct (match_here_norm _ _ _ _ E) as (m & R & Hs & _ & Hn).
    rewrite Hs, Hn, (stable_canon _ _ Hst). cbn.
    apply substr_iff. by exists [], (norm_aux false R).
  - destruct (Re.match_here uni_alnum p prev (c :: s)) as [n|] eqn:E.
    + intros _. destruct (match_here_norm _ _ _ _ E) as (m & R & Hs & _ & Hn).
      rewrite Hs, Hn, (stable_canon _ _ Hst). cbn.
      apply substr_iff. by exists [], (norm_aux false R).
    + intros Hs. cbn [norm_aux].
      destruct (is_space c); [destruct b|].
      * by apply (IH (Some c)).
      * specialize (IH (Some c) true Hs).
        apply (substr_app _ [32%N] _ []) in IH. by rewrite app_nil_r in IH.
      * specialize (IH (Some c) false Hs).
        apply (substr_app _ [c] _ []) in IH. by rewrite app_nil_r in IH.
Qed.

Lemma canon_lit (c : N) (q : list atom) (b : bool) :
  is_space c = false -> (canon_aux b (Lit c :: q)).1 = c :: canon q.
Proof.
  intros Hc. unfold canon. cbn. rewrite Hc. by destruct (canon_aux false q).
Qed.

Lemma canon_spaces (q : list atom) :
  canon (Spaces1 :: q) = 32%N :: (canon_aux true q).1.
Proof. unfold canon. cbn. by destruct (canon_aux true q). Qed.

Lemma match_complete (q : list atom) :
  plain q = true ->
  forall t prev,
    starts_with (canon q) (norm t) = true -> is_Some (match_here q prev t).
Proof.
  induction q as [|[c| |] q IH]; intros Hq t prev Hs; [by eexists| | |done].
  - cbn in Hq. apply andb_true_iff in Hq as [Hc%negb_true_iff Hq].
    unfold canon in Hs. rewrite canon_lit in Hs by done.
    destruct t as [|c' t]; [done|]. cbn in Hs.
    destruct (is_space c') eqn:Hc'; cbn in Hs;
      apply andb_true_iff in Hs as [->%N.eqb_eq Hs].
    + done.
    + cbn. rewrite N.eqb_refl.
      destruct (IH Hq t (Some c') Hs) as [n ->]. by eexists.
  - cbn in Hq. destruct q as [|[y| |] q'']; try done.
    assert (Hy : is_space y = false).
    { cbn in Hq. by apply andb_true_iff in Hq as [?%negb_true_iff _]. }
    rewrite canon_spaces, canon_lit in Hs by done.
    rewrite <- (canon_lit y q'' false Hy) in Hs.
    fold (canon (Lit y :: q'')) in Hs.
    destruct t as [|c t]; [done|]. unfold norm in Hs. cbn [norm_aux] in Hs.
    destruct (is_space c) eqn:Hc; cbn [starts_with] in Hs;
      apply andb_true_iff in Hs as [H32 Hs].
    2:{ apply N.eqb_eq in H32 as <-. done. }
    clear H32. revert c Hc prev.
    induction t as [|c2 t IHt]; intros c Hc prev.
    { unfold canon in Hs. rewrite canon_lit in Hs by done. done. }
    rewrite match_here_spaces, Hc.
    destruct (is_space c2) eqn:Hc2.
    + cbn in Hs. rewrite Hc2 in Hs.
      destruct (IHt Hs c2 Hc2 prev) as [n ->]. by eexists.
    + rewrite match_here_spaces, Hc2.
      assert (Hs' : starts_with (canon (Lit y :: q'')) (norm (c2 :: t)) = true).
      { cbn in Hs. rewrite Hc2 in Hs. unfold norm. cbn. by rewrite Hc2. }
      destruct (IH Hq (c2 :: t) (Some c) Hs') as [n ->]. by eexists.
Qed.

Lemma search_from_tail (q : list atom) (prev : option N) (c : N) (t : text) :
  search_from q (Some c) t = true -> search_from q prev (c :: t) = true.
Proof.
  intros H. cbn. by destruct (Re.match_here uni_alnum q prev (c :: t)).
Qed.

Lemma search_complete (q : list atom) :
  plain q = true -> head_lit q = true ->
  forall t prev b,
    substr (canon q) (norm_aux b t) = true -> search_from q prev t = true.
Proof.
  intros Hq Hh.
  destruct q as [|[y| |] q']; try done. cbn in Hh.
  apply negb_true_iff in Hh.
  assert (Hcanon : canon (Lit y :: q') = y :: canon q')
    by (by apply (canon_lit y q' false)).
  induction t as [|c t IH]; intros prev b Hs.
  { cbn in Hs. by rewrite Hcanon in Hs. }
  cbn [norm_aux] in Hs. destruct (is_space c) eqn:Hc.
  - apply search_from_tail. apply (IH _ true).
    destruct b; [done|]. cbn [substr] in Hs.
    apply orb_true_iff in Hs as [Hs|Hs]; [|done].
    rewrite Hcanon in Hs. cbn in Hs.
    apply andb_true_iff in Hs as [->%N.eqb_eq _]. done.
  - cbn [substr] in Hs. apply orb_true_iff in Hs as [Hs|Hs].
    + assert (Hs' : starts_with (canon (Lit y :: q')) (norm (c :: t)) = true).
      { unfold norm. cbn. by rewrite Hc. }
      destruct (match_complete _ Hq (c :: t) prev Hs') as [n Hn].
      cbn [Re.search_from]. by rewrite Hn.
    + apply search_from_tail. by apply (IH _ false).
Qed.

End Matcher.

(** ** Back from the normal form *)

Lemma starts_with_norm_inv (v : text) :
  space_free v = true ->
  forall t, starts_with v (norm t) = true -> starts_with v t = true.
Proof.
  induction v as [|v0 v IH]; intros Hv t Hs; [done|].
  cbn in Hv. apply andb_true_iff in Hv as [Hv0%negb_true_iff Hv].
  destruct t as [|c t]; [done|]. unfold norm in Hs. cbn in Hs.
  destruct (is_space c) eqn:Hc; cbn in Hs;
    apply andb_true_iff in Hs as [->%N.eqb_eq Hs].
  - done.
  - cbn. rewrite N.eqb_refl. by apply IH.
Qed.

Lemma substr_norm_inv (w : text) :
  space_free w = true -> w <> [] ->
  forall t b, substr w (norm_aux b t) = true -> substr w t = true.
Proof.
  intros Hw Hne. induction t as [|c t IH]; intros b Hs.
  { cbn in Hs. destruct w; [done|]. done. }
  cbn [norm_aux] in Hs. cbn [substr]. apply orb_true_iff.
  destruct (is_space c) eqn:Hc.
  - right. apply (IH true). destruct b; [done|].
    cbn [substr] in Hs. apply orb_true_iff in Hs as [Hs|Hs]; [|done].
    destruct w as [|w0 w]; [done|]. cbn in Hs, Hw.
    apply andb_true_iff in Hs as [->%N.eqb_eq _]. done.
  - cbn [substr] in Hs. apply orb_true_iff in Hs as [Hs|Hs].
    + left. apply (starts_with_norm_inv w Hw (c :: t)).
      unfold norm. cbn. by rewrite Hc.
    + right. by apply (IH false).
Qed.

(** ** The whole table *)

Lemma table_ok : forallb entry_ok replacements = true.
Proof. vm_compute. reflexivity. Qed.

Section Table.

Variable uni_alnum : N -> bool.

Lemma pass_joins (q : list atom) (w : text) (prev : option N) (s : text) :
  consumes q = true -> plain q = true -> head_lit q = true ->
  clean_text w = true ->
  occurs [w; canon q] (norm s) = true ->
  substr w (norm (sub_scan uni_alnum q w 0 prev s)) = true.
Proof.
  intros Hc Hp Hh Hw Hocc.
  destruct (search_from uni_alnum q prev s) eqn:Hs.
  - destruct (sub_scan_has_repl uni_alnum q w Hc s prev Hs) as (a & b & ->).
    unfold norm. rewrite norm_aux_app, norm_aux_clean by done.
    apply substr_iff. by eexists _, _.
  - rewrite sub_scan_no_match by done.
    cbn in Hocc. rewrite orb_false_r in Hocc.
    apply orb_true_iff in Hocc as [Hocc|Hocc]; [done|].
    by rewrite (search_complete uni_alnum q Hp Hh s prev false Hocc) in Hs.
Qed.

Lemma run_check_sound (w : text) (table : list (string * string)) :
  forall joined s,
    run_check w joined table = true ->
    occurs (known w joined) (norm s) = true ->
    substr w
      (norm (fold_left
               (fun modified '(pattern, replacement) =>
                  re_sub uni_alnum pattern replacement modified)
               table s)) = true.
Proof.
  induction table as [|[pattern replacement] table IH];
    intros joined s Hrun Hocc.
  { cbn in Hrun. subst joined. cbn in Hocc. by rewrite orb_false_r in Hocc. }
  cbn [run_check] in Hrun. cbn [fold_left].
  apply andb_true_iff in Hrun as [[Hc Hcl]%andb_true_iff Hrun].
  destruct (negb joined && bool_decide (lit replacement = w)) eqn:Hg.
  - apply andb_true_iff in Hg as [Hj%negb_true_iff Hw%bool_decide_eq_true].
    subst joined.
    apply andb_true_iff in Hrun
      as [[[Hf Hp]%andb_true_iff Hh]%andb_true_iff Hrun].
    apply bool_decide_eq_true in Hf.
    apply (IH true); [done|]. cbn. rewrite orb_false_r.
    unfold re_sub. rewrite Hw. apply pass_joins; try done.
    + by rewrite <- Hw.
    + by rewrite Hf.
  - apply andb_true_iff in Hrun as [[Hst Hok]%andb_true_iff Hrun].
    apply (IH joined); [done|]. unfold re_sub.
    by apply pass_preserves.
Qed.

Lemma entry_ok_sound (pattern replacement : string) (s : text) :
  entry_ok (pattern, replacement) = true ->
  re_search uni_alnum pattern s = true ->
  substr (word_of (lit replacement))
    (fix_malformed_code uni_alnum s) = true.
Proof.
  unfold entry_ok. cbn [fst snd].
  intros [[[[Hst Hfr]%andb_true_iff Hsf]%andb_true_iff Hne]%andb_true_iff
            Hrun]%andb_true_iff Hs.
  apply negb_true_iff, bool_decide_eq_false in Hne.
  apply (substr_norm_inv _ Hsf Hne _ false).
  apply (run_check_sound _ _ false); [done|].
  cbn. apply orb_true_iff. right. rewrite orb_false_r.
  apply (search_norm uni_alnum _ Hst s None false) in Hs.
  apply substr_iff in Hfr as (a & b & Hfr).
  apply substr_iff in Hs as (c & d & Hs).
  apply substr_iff. exists (c ++ a), (b ++ d).
  unfold norm. rewrite Hs, Hfr. by rewrite <- !app_assoc.
Qed.

End Table.

(** An input with two split names, of which only one is listed. *)
Definition leftover : text := lit "cpublic reate(); ipublic nit()".

(** Corruption markers can survive the transform: the input holds the
    split form of [create], and the output holds [create] and still the
    marker ["ipublic "], since no entry of the table joins
    [ipublic nit]. *)
Lemma marker_can_remain :
  ("cpublic\s+reate", "create") ∈ replacements
  /\ re_search (fun _ => false) "cpublic\s+reate" leftover = true
  /\ fix_malformed_code (fun _ => false) leftover
     = lit "create(); ipublic nit()"
  /\ has_marker (fix_malformed_code (fun _ => false) leftover) = true.
Proof.
  split_and!; [|vm_compute; reflexivity..].
  apply (list_elem_of_lookup_2 _ 23). reflexivity.
Qed.

(** X1: whenever a pattern of the table has a match in the input, the
    output contains the corrected word of that entry, which is the last
    word of its replacement ([create] for both
    [\bfunc\s+cpublic\s+reate] and [cpublic\s+reate]), whatever the
    later passes rewrite. *)
Theorem corrected_word_reaches_output (uni_alnum : N -> bool) (s : text)
    (pattern replacement : string) :
  (pattern, replacement) ∈ replacements ->
  re_search uni_alnum pattern s = true ->
  substr (word_of (lit replacement)) (fix_malformed_code uni_alnum s) = true.
Proof.
  intros Hin%list_elem_of_In Hs.
  apply (entry_ok_sound uni_alnum pattern replacement s); [|done].
  pose proof table_ok as Hall. rewrite forallb_forall in Hall.
  by apply Hall.
Qed.

Lemma corrected_word_reaches_output_witness :
  ("\bfunc\s+cpublic\s+reate", "public func create") ∈ replacements
  /\ re_search (fun _ => false) "\bfunc\s+cpublic\s+reate"
       (lit "func cpublic reate()") = true
  /\ substr (word_of (lit "public func create"))
       (fix_malformed_code (fun _ => false) (lit "func cpublic reate()"))
     = true.
Proof.
  split_and!.
  - by constructor.
  - vm_compute. reflexivity.
  - apply (corrected_word_reaches_output (fun _ => false)
             (lit "func cpublic reate()")
             "\bfunc\s+cpublic\s+reate" "public func create").
    + by constructor.
    + vm_compute. reflexivity.
Defined.

(** ** Length, and text without the keyword *)

Lemma norm_aux_length (b : bool) (t : text) :
  (length (norm_aux b t) <= length t)%nat.
Proof.
  revert b. induction t as [|c t IH]; intros b; cbn; [lia|].
  pose proof (IH true). pose proof (IH false).
  destruct (is_space c); [destruct b|]; cbn; lia.
Qed.

Lemma norm_aux_true_length (t : text) :
  (length (norm_aux true t) <= length (norm_aux false t))%nat.
Proof. destruct t as [|c t]; cbn; [lia|]. destruct (is_space c); cbn; lia. Qed.

Section Shrink.

Variable uni_alnum : N -> bool.

Lemma match_here_length (p : list atom) (prev : option N) (s : text) (n : nat) :
  stable p = true ->
  match_here uni_alnum p prev s = Some n ->
  (length (canon p) <= n <= length s)%nat.
Proof.
  intros Hst Hm.
  destruct (match_here_norm uni_alnum _ _ _ _ Hm) as (m & R & -> & <- & Hn).
  specialize (Hn false). rewrite (stable_canon _ _ Hst) in Hn. cbn in Hn.
  rewrite norm_aux_app in Hn. apply (f_equal length) in Hn.
  rewrite !length_app in Hn. rewrite length_app.
  pose proof (norm_aux_length false m).
  pose proof (norm_aux_true_length R).
  destruct (ends_ws false m); lia.
Qed.

Lemma sub_scan_length (p : list atom) (repl : text) (prev : option N) (s : text) :
  consumes p = true -> stable p = true ->
  (length repl <= length (canon p))%nat ->
  (length (sub_scan uni_alnum p repl 0 prev s) <= length s)%nat.
Proof.
  intros Hc Hst Hlen.
  apply (sub_scan_invariant uni_alnum p repl
           (fun t => (length t <= length s)%nat) Hc) with (L := []); [|cbn; lia].
  intros L prev' s' n Hm. rewrite !length_app, length_drop.
  pose proof (match_here_length _ _ _ _ Hst Hm). lia.
Qed.

Lemma fold_sub_length (table : list (string * string)) :
  forallb shrinks table = true ->
  forall s,
    (length (fold_left
               (fun modified '(pattern, replacement) =>
                  re_sub uni_alnum pattern replacement modified)
               table s) <= length s)%nat.
Proof.
  induction table as [|[pattern replacement] table IH]; intros Hall s;
    cbn [fold_left]; [lia|].
  cbn [forallb] in Hall. apply andb_true_iff in Hall as [Hs Hall].
  unfold shrinks in Hs. cbn [fst snd] in Hs.
  apply andb_true_iff in Hs as [[Hc Hst]%andb_true_iff Hlen%bool_decide_eq_true].
  etransitivity; [by apply IH|]. unfold re_sub. by apply sub_scan_length.
Qed.

(** X3: the transform never makes a text longer: no replacement is
    longer than the shortest text its pattern matches. *)
Theorem fix_malformed_code_never_longer (s : text) :
  (length (fix_malformed_code uni_alnum s) <= length s)%nat.
Proof. apply fold_sub_length. vm_compute. reflexivity. Qed.

(** X2: a text in which [public] does not occur is returned as it is:
    every pattern of the table needs the keyword. *)
Theorem untouched_without_public (s : text) :
  substr (lit "public") s = false -> fix_malformed_code uni_alnum s = s.
Proof.
  intros Hs. apply fold_sub_clean. intros pattern replacement Hin.
  destruct (re_search uni_alnum pattern s) eqn:Hm; [exfalso|done].
  assert (Hall : forallb shows_public replacements = true)
    by (vm_compute; reflexivity).
  rewrite forallb_forall in Hall.
  apply list_elem_of_In, Hall in Hin. unfold shows_public in Hin.
  cbn [fst] in Hin. apply andb_true_iff in Hin as [Hst Hpub].
  apply (search_norm uni_alnum _ Hst s None false) in Hm.
  apply substr_iff in Hpub as (a & b & Hpub).
  apply substr_iff in Hm as (c & d & Hm).
  assert (Hn : substr (lit "public") (norm_aux false s) = true).
  { apply substr_iff. exists (c ++ a), (b ++ d).
    rewrite Hm, Hpub. by rewrite <- !app_assoc. }
  apply substr_norm_inv in Hn; [congruence|by vm_compute|done].
Qed.

End Shrink.

Lemma untouched_without_public_witness :
  fix_malformed_code (fun _ => false) (lit "private func createProject()")
  = lit "private func createProject()".
Proof.
  apply (untouched_without_public (fun _ => false)). vm_compute. reflexivity.
Defined.

End FragmentProofs.

(* ===================================================================== *)
(** * Properties of the file processing                                   *)
(* ===================================================================== *)

Module FileProofs.

Import Py Re FixSwift.

Lemma backup_path_fresh (filepath : string) : filepath +:+ ".bak" <> filepath.
Proof.
  induction filepath as [|c p IH]; cbn; [discriminate|].
  intros H. injection H as H. contradiction.
Qed.

#[local] Opaque FixSwift.fix_malformed_code.

Ltac run_io :=
  cbv [process_file process_file_body try_except read_text open_w write
       remove io get_fs set_fs print modify mbind mret M_bind M_ret bind ret
       raise];
  cbn [fs swift_glob faults stdout trace head tail mjoin option_join
       is_exception message fst snd].

(** The paths read, in order, among the operations of a trace. *)
Definition reads_of (tr : list event) : list string :=
  omap (fun ev => match ev with EvRead p => Some p | _ => None end) tr.

(** The next [n] scheduled operations proceed without a fault. *)
Fixpoint no_faults (n : nat) (fl : list (option fault)) : Prop :=
  match n with
  | O => True
  | S n' => mjoin (head fl) = None /\ no_faults n' (tail fl)
  end.

(** A computation is tame on [paths] when it reads no file, touches the
    file system at [paths] only, leaves the directory listing alone and
    raises nothing but an [Exception]. *)
Record tame (paths : list string) {A : Type} (c : M world exn A) : Prop := Tame {
  tame_trace : forall w, exists evs,
      trace (c w).2 = trace w ++ evs /\ reads_of evs = [];
  tame_fs : forall w q, q ∉ paths -> fs (c w).2 !! q = fs w !! q;
  tame_glob : forall w, swift_glob (c w).2 = swift_glob w;
  tame_exn : forall w e, (c w).1 = Raised e -> is_exception e = true }.

Lemma tame_ret paths {A} (a : A) : tame paths (mret a : M world exn A).
Proof.
  split; cbn; intros; try done. exists []. by rewrite app_nil_r.
Qed.

Lemma tame_raise paths {A} (msg : string) :
  tame paths (raise (Error msg) : M world exn A).
Proof.
  split; cbn; intros; simplify_eq; try done. exists []. by rewrite app_nil_r.
Qed.

Lemma tame_bind paths {A B} (c : M world exn A) (k : A -> M world exn B) :
  tame paths c -> (forall a, tame paths (k a)) -> tame paths (c ≫= k).
Proof.
  intros [Ct Cf Cg Ce] Hk.
  split; intros w; unfold mbind, M_bind, bind;
    specialize (Ct w); specialize (Cf w); specialize (Cg w); specialize (Ce w);
    destruct (c w) as [[a|e] w1]; cbn in *; try done.
  - destruct Ct as (e1 & T1 & R1).
    destruct (tame_trace _ _ (Hk a) w1) as (e2 & T2 & R2).
    exists (e1 ++ e2). rewrite T2, T1, app_assoc. split; [done|].
    unfold reads_of in *. by rewrite omap_app, R1, R2.
  - intros q Hq. rewrite (tame_fs _ _ (Hk a)) by done. by apply Cf.
  - by rewrite (tame_glob _ _ (Hk a)).
  - apply (tame_exn _ _ (Hk a)).
  - intros e0 [= <-]. by apply Ce.
Qed.

Lemma tame_weaken paths paths' {A} (c : M world exn A) :
  paths ⊆ paths' -> tame paths c -> tame paths' c.
Proof.
  intros Hsub [Ct Cf Cg Ce]. split; try done.
  intros w q Hq. apply Cf. intros Hin. apply Hq, Hsub, Hin.
Qed.

Lemma tame_print paths (l : line) : tame paths (print l).
Proof.
  split; cbn; intros; try done. exists []. by rewrite app_nil_r.
Qed.

Ltac tame_op :=
  split; intros [m glob fl out tr];
  cbv [open_w write remove io get_fs set_fs modify mbind mret M_bind M_ret bind
       ret raise];
  cbn [fs swift_glob faults stdout trace head tail fst snd];
  repeat (case_match; cbn [fs swift_glob faults stdout trace fst snd]);
  intros; simplify_eq; try done;
  try (eexists [_]; split; reflexivity);
  try (by simplify_map_eq);
  try set_solver.

Lemma tame_open_w (path : string) : tame [path] (open_w path).
Proof. tame_op. all: rewrite lookup_insert_ne; set_solver. Qed.

Lemma tame_write (path : string) (content : text) : tame [path] (write path content).
Proof. tame_op. all: rewrite lookup_insert_ne; set_solver. Qed.

Lemma tame_remove (path : string) : tame [path] (remove path).
Proof. tame_op. all: rewrite lookup_delete_ne; set_solver. Qed.

Section Files.

Variable uni_alnum : N -> bool.

Local Abbreviation fix_malformed_code := (fix_malformed_code uni_alnum).
Local Abbreviation process_file := (process_file uni_alnum).
Local Abbreviation process_file_body := (process_file_body uni_alnum).
Local Abbreviation process_all := (process_all uni_alnum).

(** What the rewrite branch of [process_file] does after the read. *)
Definition rewrite_branch (filepath : string) (original : text)
  : M world exn bool :=
  let modified := fix_malformed_code original in
  if bool_decide (modified ≠ original) then
    let backup_path := filepath +:+ ".bak" in
    open_w backup_path ;;
    write backup_path original ;;
    open_w filepath ;;
    write filepath modified ;;
    print (FixedFile filepath (changed_lines original modified)) ;;
    remove backup_path ;;
    mret true
  else mret false.

Lemma process_file_body_unfold (filepath : string) :
  process_file_body filepath = read_text filepath ≫= rewrite_branch filepath.
Proof. reflexivity. Qed.

Lemma tame_rewrite_branch (filepath : string) (original : text) :
  tame [filepath; filepath +:+ ".bak"] (rewrite_branch filepath original).
Proof.
  unfold rewrite_branch. case_bool_decide; [|apply tame_ret].
  repeat (apply tame_bind; [|intros _]);
    try apply tame_ret; try apply tame_print;
    (eapply tame_weaken;
       [|first [apply tame_open_w | apply tame_write | apply tame_remove]]);
    intros q ->%list_elem_of_singleton; repeat constructor.
Qed.

(** The read: one logged operation, no change to the files. *)
Lemma read_text_world (path : string) (w : world) :
  (read_text path w).2
  = World (fs w) (swift_glob w) (tail (faults w)) (stdout w)
      (trace w ++ [EvRead path])
  /\ (forall e, (read_text path w).1 = Raised e -> is_exception e = true).
Proof.
  destruct w as [m glob fl out tr].
  cbv [read_text io get_fs mbind mret M_bind M_ret bind ret raise].
  cbn [fs swift_glob faults stdout trace fst snd].
  repeat (case_match; cbn [fst snd]); split; intros; simplify_eq; done.
Qed.

(** The body of the [try] block: whatever it raises is an [Exception]; it
    attempts exactly one read and touches the file and its backup path
    only. *)
Lemma process_file_body_contained (filepath : string) (w : world) :
  (forall e, (process_file_body filepath w).1 = Raised e -> is_exception e = true)
  /\ (exists evs, trace (process_file_body filepath w).2
                  = trace w ++ EvRead filepath :: evs /\ reads_of evs = [])
  /\ (forall q, q <> filepath -> q <> filepath +:+ ".bak" ->
        fs (process_file_body filepath w).2 !! q = fs w !! q)
  /\ swift_glob (process_file_body filepath w).2 = swift_glob w.
Proof.
  destruct (read_text_world filepath w) as [Hw He].
  rewrite process_file_body_unfold. unfold mbind, M_bind, bind.
  destruct (read_text filepath w) as [[c|e] w1]; cbn [fst snd] in *; subst w1.
  - pose proof (tame_rewrite_branch filepath c) as [Tt Tf Tg Te].
    set (w1 := World _ _ _ _ _) in *.
    specialize (Tt w1); specialize (Tf w1); specialize (Tg w1);
      specialize (Te w1).
    split; [exact Te|]. destruct Tt as (evs & T & R).
    split; [exists evs; rewrite T; unfold w1; cbn [trace];
            by rewrite <- app_assoc|].
    split; [|done]. intros q H1 H2. rewrite Tf; [done|].
    by intros [->|[->|[]%elem_of_nil]%elem_of_cons]%elem_of_cons.
  - split; [intros e0 [= <-]; by apply He|]. split; [by exists []|]. done.
Qed.

(** [process_file] catches what its body raises. *)
Lemma process_file_catches (filepath : string) (w : world) :
  match process_file_body filepath w with
  | (Ret b, w1) => process_file filepath w = (Ret b, w1)
  | (Raised e, w1) =>
      exists msg,
        e = Error msg /\
        process_file filepath w
        = (Ret false,
           World (fs w1) (swift_glob w1) (faults w1)
             (stdout w1 ++ [ErrorProcessing filepath msg]) (trace w1))
  end.
Proof.
  destruct (process_file_body_contained filepath w) as (He & _).
  unfold FixSwift.process_file, try_except.
  destruct (process_file_body filepath w) as [[b|e] w1]; [done|].
  specialize (He e eq_refl). destruct e as [code|msg]; [discriminate|].
  by exists msg.
Qed.

(** [process_file] in every world: it returns, it attempts exactly one
    read, it touches the file and its backup path only. *)
Lemma process_file_contained (filepath : string) (w : world) :
  (exists b, (process_file filepath w).1 = Ret b)
  /\ (exists evs, trace (process_file filepath w).2
                  = trace w ++ EvRead filepath :: evs /\ reads_of evs = [])
  /\ (forall q, q <> filepath -> q <> filepath +:+ ".bak" ->
        fs (process_file filepath w).2 !! q = fs w !! q)
  /\ swift_glob (process_file filepath w).2 = swift_glob w.
Proof.
  pose proof (process_file_catches filepath w) as Hc.
  destruct (process_file_body_contained filepath w) as (_ & Ht & Hf & Hg).
  destruct (process_file_body filepath w) as [[b|e] w1]; cbn [fst snd] in *.
  - rewrite Hc. cbn. eauto.
  - destruct Hc as (msg & -> & ->). cbn. eauto.
Qed.

Lemma process_all_continues (swift_files : list string) :
  forall (n : nat) (w : world),
    exists n' w',
      process_all swift_files n w = (Ret n', w')
      /\ reads_of (trace w') = reads_of (trace w) ++ swift_files
      /\ swift_glob w' = swift_glob w.
Proof.
  induction swift_files as [|filepath rest IH]; intros n w.
  - exists n, w. by rewrite app_nil_r.
  - cbn [FixSwift.process_all]. unfold mbind, M_bind, bind.
    destruct (process_file_contained filepath w)
      as ((b & Hb) & (evs & Ht & Hr) & _ & Hg).
    destruct (process_file filepath w) as [r w1]; cbn [fst snd] in *; subst r.
    destruct (IH (if b then S n else n) w1) as (n' & w' & -> & Hreads & Hg').
    exists n', w'. split; [done|]. split; [|congruence].
    rewrite Hreads, Ht. unfold reads_of in *.
    rewrite !omap_app. cbn. rewrite Hr. by rewrite <- app_assoc.
Qed.

(** ** The rewrite of a file whose content changes *)

Ltac ev_in H :=
  repeat match type of H with
         | _ ∈ _ :: _ => apply elem_of_cons in H as [H|H]
         | _ ∈ [] => apply elem_of_nil in H; destruct H
         end.

Ltac is_in :=
  solve [repeat first [apply list_elem_of_here | apply list_elem_of_further]].

Ltac leaf :=
  split_and!; try split; intros;
  repeat match goal with
         | H : _ ∈ _ |- _ => ev_in H; simplify_eq
         | H : _ ∉ _ |- _ => try (exfalso; apply H; is_in); clear H
         | H : _ /\ _ |- _ => destruct H
         end;
  try done; try congruence;
  try (split_and!; try done; try congruence); by simplify_map_eq.

Ltac stage evs :=
  exists evs; rewrite <- !app_assoc; cbn [app];
  split; [done|]; split; [by eexists|]; cbn [no_faults]; leaf.

Lemma process_file_changed (filepath : string) (w : world) (c : text) :
  mjoin (head (faults w)) = None ->
  fs w !! filepath = Some (File c) ->
  fix_malformed_code c <> c ->
  let bak := filepath +:+ ".bak" in
  let r := (process_file filepath w).1 in
  let w' := (process_file filepath w).2 in
  exists evs,
    trace w' = trace w ++ EvRead filepath :: evs
    /\ evs `prefix_of`
         [EvOpenW bak; EvWrite bak; EvOpenW filepath; EvWrite filepath;
          EvRemove bak]
    /\ (EvOpenW filepath ∉ evs -> fs w' !! filepath = Some (File c))
    /\ (EvOpenW filepath ∈ evs -> EvRemove bak ∉ evs ->
        r = Ret false /\ fs w' !! bak = Some (File c))
    /\ (EvRemove bak ∈ evs ->
        fs w' !! filepath = Some (File (fix_malformed_code c)))
    /\ (r = Ret true -> fs w' !! bak = None)
    /\ (r = Ret true <->
        fs w !! bak <> Some Dir /\ no_faults 5 (tail (faults w))).
Proof.
  intros Hf Hc Hfix bak. pose proof (backup_path_fresh filepath) as Hbak.
  fold bak in Hbak.
  destruct w as [m glob fl out tr]. cbn [faults fs trace] in *.
  run_io. fold bak. rewrite Hf. cbn. rewrite Hc. cbn.
  rewrite bool_decide_true by done. cbn.
  destruct (mjoin (head (tail fl))) as [ft1|] eqn:F1; cbn;
    [stage [EvOpenW bak]|].
  destruct (m !! bak) as [[cb| |]|] eqn:Hb; cbn.
  3: stage [EvOpenW bak].
  all: destruct (mjoin (head (tail (tail fl)))) as [ft2|] eqn:F2; cbn;
    [stage [EvOpenW bak; EvWrite bak]|].
  all: destruct (mjoin (head (tail (tail (tail fl))))) as [ft3|] eqn:F3; cbn;
    [stage [EvOpenW bak; EvWrite bak; EvOpenW filepath]|].
  all: rewrite 2!(lookup_insert_ne _ bak filepath), Hc by done; cbn.
  all: destruct (mjoin (head (tail (tail (tail (tail fl)))))) as [ft4|] eqn:F4;
    cbn; [stage [EvOpenW bak; EvWrite bak; EvOpenW filepath; EvWrite filepath]|].
  all: destruct (mjoin (head (tail (tail (tail (tail (tail fl)))))))
         as [ft5|] eqn:F5; cbn;
    [stage [EvOpenW bak; EvWrite bak; EvOpenW filepath; EvWrite filepath;
            EvRemove bak]|].
  all: rewrite 2!(lookup_insert_ne _ filepath bak), lookup_insert_eq by done;
    cbn.
  all: stage [EvOpenW bak; EvWrite bak; EvOpenW filepath; EvWrite filepath;
              EvRemove bak].
Qed.

(** How far the rewrite gets: the backup is always opened, and each
    later operation is attempted exactly when the operations before it
    proceeded. *)

Ltac step_leaf :=
  split_and!; try split; intros;
  repeat match goal with
         | H : _ ∈ _ |- _ => ev_in H; simplify_eq
         | H : _ /\ _ |- _ => destruct H
         end;
  try is_in; try done; try congruence;
  try (split_and!; try done; try congruence);
  try (by left); try (right; split; [done|by simplify_map_eq]).

Ltac step evs :=
  exists evs; rewrite <- !app_assoc; cbn [app];
  split; [done|]; cbn [no_faults]; solve [step_leaf].

Lemma process_file_progress (filepath : string) (w : world) (c : text) :
  mjoin (head (faults w)) = None ->
  fs w !! filepath = Some (File c) ->
  fix_malformed_code c <> c ->
  let bak := filepath +:+ ".bak" in
  let r := (process_file filepath w).1 in
  let w' := (process_file filepath w).2 in
  let proceed n :=
    fs w !! bak <> Some Dir /\ no_faults n (tail (faults w)) in
  exists evs,
    trace w' = trace w ++ EvRead filepath :: evs
    /\ EvOpenW bak ∈ evs
    /\ (EvWrite bak ∈ evs <-> proceed 1%nat)
    /\ (EvOpenW filepath ∈ evs <-> proceed 2%nat)
    /\ (EvWrite filepath ∈ evs <-> proceed 3%nat)
    /\ (EvRemove bak ∈ evs <-> proceed 4%nat)
    /\ (EvOpenW filepath ∈ evs ->
        r = Ret true \/ (r = Ret false /\ fs w' !! bak = Some (File c))).
Proof.
  intros Hf Hc Hfix bak. pose proof (backup_path_fresh filepath) as Hbak.
  fold bak in Hbak. cbn zeta.
  destruct w as [m glob fl out tr]. cbn [faults fs trace] in *.
  run_io. fold bak. rewrite Hf. cbn. rewrite Hc. cbn.
  rewrite bool_decide_true by done. cbn.
  destruct (mjoin (head (tail fl))) as [ft1|] eqn:F1; cbn;
    [step [EvOpenW bak]|].
  destruct (m !! bak) as [[cb| |]|] eqn:Hb; cbn.
  3: step [EvOpenW bak].
  all: destruct (mjoin (head (tail (tail fl)))) as [ft2|] eqn:F2; cbn;
    [step [EvOpenW bak; EvWrite bak]|].
  all: destruct (mjoin (head (tail (tail (tail fl))))) as [ft3|] eqn:F3; cbn;
    [step [EvOpenW bak; EvWrite bak; EvOpenW filepath]|].
  all: rewrite 2!(lookup_insert_ne _ bak filepath), Hc by done; cbn.
  all: destruct (mjoin (head (tail (tail (tail (tail fl)))))) as [ft4|] eqn:F4;
    cbn; [step [EvOpenW bak; EvWrite bak; EvOpenW filepath; EvWrite filepath]|].
  all: destruct (mjoin (head (tail (tail (tail (tail (tail fl)))))))
         as [ft5|] eqn:F5; cbn;
    [step [EvOpenW bak; EvWrite bak; EvOpenW filepath; EvWrite filepath;
            EvRemove bak]|].
  all: rewrite 2!(lookup_insert_ne _ filepath bak), lookup_insert_eq by done;
    cbn.
  all: step [EvOpenW bak; EvWrite bak; EvOpenW filepath; EvWrite filepath;
              EvRemove bak].
Qed.



(** C6: when the transformed content differs from the original, the
    operations after the read follow the order backup-open, backup-write,
    file-open, file-write, backup-remove and stop at the first that
    raises.  Before the overwrite starts the file still holds the
    original; once it has started and until the removal is reached (that
    is, whenever the overwrite raised) [process_file] returns [False] and
    the backup holds the original content; the removal is only reached
    with the fixed content completely written, and a [True] result leaves
    no backup behind.  The backup is always opened first, and every later
    operation is attempted exactly when the ones before it proceeded (the
    backup path is not a directory and no fault hits them): the backup is
    written, then the file is opened and overwritten, then the backup is
    removed; [True] is returned exactly when all five proceed.  From the
    moment the overwrite starts, either the run ends with [True] or the
    backup still holds the original. *)
Theorem C6_backup_around_rewrite (filepath : string) (w : world) (c : text) :
  mjoin (head (faults w)) = None ->
  fs w !! filepath = Some (File c) ->
  fix_malformed_code c <> c ->
  let bak := filepath +:+ ".bak" in
  let r := (process_file filepath w).1 in
  let w' := (process_file filepath w).2 in
  let proceed n :=
    fs w !! bak <> Some Dir /\ no_faults n (tail (faults w)) in
  exists evs,
    trace w' = trace w ++ EvRead filepath :: evs
    /\ evs `prefix_of`
         [EvOpenW bak; EvWrite bak; EvOpenW filepath; EvWrite filepath;
          EvRemove bak]
    /\ (EvOpenW filepath ∉ evs -> fs w' !! filepath = Some (File c))
    /\ (EvOpenW filepath ∈ evs -> EvRemove bak ∉ evs ->
        r = Ret false /\ fs w' !! bak = Some (File c))
    /\ (EvRemove bak ∈ evs ->
        fs w' !! filepath = Some (File (fix_malformed_code c)))
    /\ (r = Ret true -> fs w' !! bak = None)
    /\ EvOpenW bak ∈ evs
    /\ (EvWrite bak ∈ evs <-> proceed 1%nat)
    /\ (EvOpenW filepath ∈ evs <-> proceed 2%nat)
    /\ (EvWrite filepath ∈ evs <-> proceed 3%nat)
    /\ (EvRemove bak ∈ evs <-> proceed 4%nat)
    /\ (r = Ret true <-> proceed 5%nat)
    /\ (EvOpenW filepath ∈ evs ->
        r = Ret true \/ (r = Ret false /\ fs w' !! bak = Some (File c))).
Proof.
  intros Hf Hc Hfix bak r w' proceed.
  destruct (process_file_changed filepath w c Hf Hc Hfix)
    as (evs & H1 & H2 & H3 & H4 & H5 & H6 & H7).
  destruct (process_file_progress filepath w c Hf Hc Hfix)
    as (evs' & H1' & P0 & P1 & P2 & P3 & P4 & P5).
  assert (evs' = evs) as ->.
  { fold w' in H1, H1'. rewrite H1 in H1'.
    apply app_inv_head in H1'. by injection H1'. }
  exists evs. split_and!; assumption.
Qed.



(** Without the directory the script stops with status 1. *)
Lemma script_without_sources (w : world) :
  fs w !! sources_dir = None -> (script uni_alnum w).1 = 1%Z.
Proof.
  destruct w as [m glob fl out tr]. cbn [fs]. intros H.
  unfold script, main.
  cbv [get_fs print modify mbind mret M_bind M_ret bind ret raise].
  cbn [fs]. rewrite H. rewrite bool_decide_false by (intros [? ?]; done).
  reflexivity.
Qed.

End Files.

(** ** Concrete worlds *)

(** [Sources/a.swift] holds a corrupted declaration and the disk fills up
    after three characters of the overwrite. *)
Definition disk_full : world :=
  World
    (<["Sources" := Dir]>
       (<["Sources/a.swift" := File (lit "func cpublic reateProject()")]> ∅))
    ["Sources/a.swift"]
    [None; None; None; None; Some (Fault "ENOSPC" 3)] [] [].


(** [Sources] exists and [Sources/a.swift] is not valid UTF-8. *)
Definition unreadable_tree : world :=
  World
    (<["Sources" := Dir]> (<["Sources/a.swift" := Undecodable]> ∅))
    ["Sources/a.swift"] [] [] [].

Lemma C6_backup_around_rewrite_witness :
  let alnum := fun _ : N => false in
  let r := (process_file alnum "Sources/a.swift" disk_full).1 in
  let w' := (process_file alnum "Sources/a.swift" disk_full).2 in
  let proceed n :=
    fs disk_full !! "Sources/a.swift.bak" <> Some Dir
    /\ no_faults n (tail (faults disk_full)) in
  exists evs,
    trace w' = trace disk_full ++ EvRead "Sources/a.swift" :: evs
    /\ evs `prefix_of`
         [EvOpenW "Sources/a.swift.bak"; EvWrite "Sources/a.swift.bak";
          EvOpenW "Sources/a.swift"; EvWrite "Sources/a.swift";
          EvRemove "Sources/a.swift.bak"]
    /\ (EvOpenW "Sources/a.swift" ∉ evs ->
        fs w' !! "Sources/a.swift"
        = Some (File (lit "func cpublic reateProject()")))
    /\ (EvOpenW "Sources/a.swift" ∈ evs ->
        EvRemove "Sources/a.swift.bak" ∉ evs ->
        r = Ret false /\
        fs w' !! "Sources/a.swift.bak"
        = Some (File (lit "func cpublic reateProject()")))
    /\ (EvRemove "Sources/a.swift.bak" ∈ evs ->
        fs w' !! "Sources/a.swift"
        = Some (File (fix_malformed_code alnum
                        (lit "func cpublic reateProject()"))))
    /\ (r = Ret true -> fs w' !! "Sources/a.swift.bak" = None)
    /\ EvOpenW "Sources/a.swift.bak" ∈ evs
    /\ (EvWrite "Sources/a.swift.bak" ∈ evs <-> proceed 1%nat)
    /\ (EvOpenW "Sources/a.swift" ∈ evs <-> proceed 2%nat)
    /\ (EvWrite "Sources/a.swift" ∈ evs <-> proceed 3%nat)
    /\ (EvRemove "Sources/a.swift.bak" ∈ evs <-> proceed 4%nat)
    /\ (r = Ret true <-> proceed 5%nat)
    /\ (EvOpenW "Sources/a.swift" ∈ evs ->
        r = Ret true
        \/ (r = Ret false
            /\ fs w' !! "Sources/a.swift.bak"
               = Some (File (lit "func cpublic reateProject()")))).
Proof.
  intros alnum.
  apply (C6_backup_around_rewrite alnum "Sources/a.swift" disk_full
           (lit "func cpublic reateProject()")).
  - reflexivity.
  - vm_compute. reflexivity.
  - vm_compute. discriminate.
Defined.



(** C9 (evaluation at the failing input): [Sources] exists and holds one
    Swift file that cannot be decoded.  [process_file] reports the file
    and the loop goes on, but the unguarded read of the verification pass
    raises and the process ends with status 1. *)
Theorem C9_unreadable_file_exit_status (uni_alnum : N -> bool) :
  is_Some (fs unreadable_tree !! sources_dir)
  /\ (process_all uni_alnum (swift_glob unreadable_tree) 0 unreadable_tree).1
     = Ret 0%nat
  /\ main uni_alnum unreadable_tree
     = (Raised (Error "UnicodeDecodeError"),
        World (fs unreadable_tree) (swift_glob unreadable_tree) []
          [Scanning 1;
           ErrorProcessing "Sources/a.swift" "UnicodeDecodeError";
           FixedCount 0]
          [EvRead "Sources/a.swift"; EvRead "Sources/a.swift"])
  /\ (script uni_alnum unreadable_tree).1 = 1%Z.
Proof.
  split; [vm_compute; eauto|].
  split_and!; vm_compute; reflexivity.
Qed.

End FileProofs.

(* ===================================================================== *)
(** * Runs without I/O faults, and edge cases of the run                *)
(* ===================================================================== *)

Module RunProofs.

Import Py Re FixSwift FileProofs.

#[local] Opaque FixSwift.fix_malformed_code.

Section Run.

Variable uni_alnum : N -> bool.

Local Abbreviation fix_malformed_code := (fix_malformed_code uni_alnum).
Local Abbreviation process_file := (process_file uni_alnum).
Local Abbreviation process_all := (process_all uni_alnum).
Local Abbreviation main := (main uni_alnum).
Local Abbreviation script := (script uni_alnum).

(** ** One file, when no I/O operation is hit by a fault *)

(** What [process_file] makes of the files, what it prints and what it
    returns when the operating system lets every operation proceed. *)
Definition outcome (m : gmap string node) (filepath : string)
  : gmap string node * list line * bool :=
  match m !! filepath with
  | Some (File c) =>
      if bool_decide (fix_malformed_code c ≠ c) then
        match m !! (filepath +:+ ".bak") with
        | Some Dir => (m, [ErrorProcessing filepath "IsADirectoryError"], false)
        | _ =>
            (delete (filepath +:+ ".bak")
               (<[filepath := File (fix_malformed_code c)]> m),
             [FixedFile filepath (changed_lines c (fix_malformed_code c))],
             true)
        end
      else (m, [], false)
  | Some Undecodable => (m, [ErrorProcessing filepath "UnicodeDecodeError"], false)
  | Some Dir => (m, [ErrorProcessing filepath "IsADirectoryError"], false)
  | None => (m, [ErrorProcessing filepath "FileNotFoundError"], false)
  end.

Lemma rewrite_fs (m : gmap string node) (f : string) (c c' : text) :
  delete (f +:+ ".bak")
    (<[f := File c']>
       (<[f := File []]>
          (<[f +:+ ".bak" := File c]> (<[f +:+ ".bak" := File []]> m))))
  = delete (f +:+ ".bak") (<[f := File c']> m).
Proof.
  pose proof (backup_path_fresh f) as Hbak.
  apply map_eq. intros q.
  destruct (decide (q = f +:+ ".bak")) as [->|Hq1].
  { by rewrite !lookup_delete_eq. }
  rewrite !lookup_delete_ne by done.
  destruct (decide (q = f)) as [->|Hq2].
  { by rewrite !lookup_insert_eq. }
  by rewrite !lookup_insert_ne by done.
Qed.

Lemma process_file_quiet (filepath : string) (w : world) :
  faults w = [] ->
  exists tr,
    process_file filepath w
    = (Ret (outcome (fs w) filepath).2,
       World (outcome (fs w) filepath).1.1 (swift_glob w) []
         (stdout w ++ (outcome (fs w) filepath).1.2) tr).
Proof.
  pose proof (backup_path_fresh filepath) as Hbak.
  destruct w as [m glob fl out tr]. cbn [faults fs stdout swift_glob].
  intros ->. unfold outcome. run_io. cbn.
  destruct (m !! filepath) as [[c| |]|] eqn:Hc; cbn; try by eexists.
  case_bool_decide as Hfix; cbn; [|rewrite app_nil_r; by eexists].
  destruct (m !! (filepath +:+ ".bak")) as [[cb| |]|] eqn:Hb; cbn;
    try (by eexists);
    rewrite 2!(lookup_insert_ne _ (filepath +:+ ".bak") filepath), Hc by done;
    cbn;
    rewrite 2!(lookup_insert_ne _ filepath (filepath +:+ ".bak")),
      lookup_insert_eq by done;
    cbn; rewrite rewrite_fs; by eexists.
Qed.

(** ** The loop of [main] *)

(** The files, the lines printed and the number of files fixed after the
    loop has gone through [files]. *)
Fixpoint run_files (m : gmap string node) (files : list string)
  : gmap string node * list line * nat :=
  match files with
  | [] => (m, [], 0%nat)
  | f :: rest =>
      let r := run_files (outcome m f).1.1 rest in
      (r.1.1, (outcome m f).1.2 ++ r.1.2,
       if (outcome m f).2 then S r.2 else r.2)
  end.

Lemma process_all_quiet (files : list string) :
  forall (n : nat) (w : world),
    faults w = [] ->
    exists tr,
      process_all files n w
      = (Ret (n + (run_files (fs w) files).2)%nat,
         World (run_files (fs w) files).1.1 (swift_glob w) []
           (stdout w ++ (run_files (fs w) files).1.2) tr).
Proof.
  induction files as [|f rest IH]; intros n w Hw.
  - destruct w as [m glob fl out tr]. cbn in *. subst fl.
    exists tr. by rewrite Nat.add_0_r, app_nil_r.
  - cbn [FixSwift.process_all run_files]. unfold mbind, M_bind, bind.
    destruct (process_file_quiet f w Hw) as [tr1 ->].
    set (w1 := World _ _ _ _ _).
    destruct (IH (if (outcome (fs w) f).2 then S n else n) w1 eq_refl)
      as [tr ->].
    exists tr. cbn [fs swift_glob stdout w1 fst snd]. f_equal.
    + f_equal. destruct (outcome (fs w) f).2; lia.
    + by rewrite <- app_assoc.
Qed.

(** The node of a file after a successful pass. *)
Definition fixed_node (x : option node) : option node :=
  match x with
  | Some (File c) => Some (File (fix_malformed_code c))
  | _ => x
  end.

Definition is_dir (x : option node) : bool :=
  match x with Some Dir => true | _ => false end.

Definition is_file (x : option node) : bool :=
  match x with Some (File _) => true | _ => false end.

(** The transform changes the content of the file. *)
Definition needs_fix (m : gmap string node) (f : string) : bool :=
  match m !! f with
  | Some (File c) => bool_decide (fix_malformed_code c ≠ c)
  | _ => false
  end.

Lemma outcome_other (m : gmap string node) (f q : string) :
  q <> f -> q <> f +:+ ".bak" -> (outcome m f).1.1 !! q = m !! q.
Proof.
  intros Hq1 Hq2. unfold outcome.
  repeat case_match; cbn; try done.
  all: by rewrite lookup_delete_ne, lookup_insert_ne.
Qed.

Lemma outcome_self (m : gmap string node) (f : string) :
  is_dir (m !! (f +:+ ".bak")) = false ->
  (outcome m f).1.1 !! f = fixed_node (m !! f).
Proof.
  pose proof (backup_path_fresh f) as Hbak.
  intros Hb. unfold outcome.
  destruct (m !! f) as [[c| |]|] eqn:Hc; cbn; try done.
  case_bool_decide as Hfix; cbn.
  - destruct (m !! (f +:+ ".bak")) as [[cb| |]|]; cbn; try done.
    all: by rewrite lookup_delete_ne, lookup_insert_eq.
  - by rewrite Hc, Hfix.
Qed.

Lemma outcome_is_dir (m : gmap string node) (f q : string) :
  is_dir ((outcome m f).1.1 !! q) = is_dir (m !! q).
Proof.
  unfold outcome.
  destruct (m !! f) as [[c| |]|] eqn:Hc; cbn; try done.
  case_bool_decide as Hfix; cbn; [|done].
  destruct (m !! (f +:+ ".bak")) as [[cb| |]|] eqn:Hb; cbn; try done.
  all: destruct (decide (q = f +:+ ".bak")) as [->|Hq1];
    [by rewrite lookup_delete_eq, Hb|rewrite lookup_delete_ne by done].
  all: destruct (decide (q = f)) as [->|Hq2];
    [by rewrite lookup_insert_eq, Hc|by rewrite lookup_insert_ne].
Qed.

Lemma outcome_result (m : gmap string node) (f : string) :
  is_dir (m !! (f +:+ ".bak")) = false ->
  (outcome m f).2 = needs_fix m f.
Proof.
  intros Hb. unfold outcome, needs_fix.
  destruct (m !! f) as [[c| |]|]; cbn; try done.
  case_bool_decide; cbn; [|done].
  by destruct (m !! (f +:+ ".bak")) as [[cb| |]|].
Qed.

Lemma outcome_ext (m m' : gmap string node) (f : string) :
  m' !! f = m !! f ->
  is_dir (m' !! (f +:+ ".bak")) = false ->
  is_dir (m !! (f +:+ ".bak")) = false ->
  (outcome m' f).1.2 = (outcome m f).1.2 /\ (outcome m' f).2 = (outcome m f).2.
Proof.
  intros Hf Hb' Hb. unfold outcome. rewrite Hf.
  destruct (m !! f) as [[c| |]|]; cbn; try done.
  case_bool_decide; cbn; [|done].
  destruct (m !! (f +:+ ".bak")) as [[cb| |]|];
    destruct (m' !! (f +:+ ".bak")) as [[cb'| |]|]; done.
Qed.

Lemma outcome_is_file (m : gmap string node) (f q : string) :
  q <> f +:+ ".bak" ->
  is_file ((outcome m f).1.1 !! q) = is_file (m !! q).
Proof.
  intros Hq. unfold outcome.
  destruct (m !! f) as [[c| |]|] eqn:Hc; cbn; try done.
  case_bool_decide as Hfix; cbn; [|done].
  destruct (m !! (f +:+ ".bak")) as [[cb| |]|] eqn:Hb; cbn; try done.
  all: rewrite lookup_delete_ne by done.
  all: destruct (decide (q = f)) as [->|Hq2];
    [by rewrite lookup_insert_eq, Hc|by rewrite lookup_insert_ne].
Qed.

(** No path of [files] is the backup path of another: in the result of a
    [*.swift] glob none ends in [.bak]. *)
Definition apart (files : list string) : Prop :=
  forall f g, f ∈ files -> g ∈ files -> g <> f +:+ ".bak".

(** No backup path of [files] is a directory. *)
Definition no_backup_dir (m : gmap string node) (files : list string) : Prop :=
  forall f, f ∈ files -> is_dir (m !! (f +:+ ".bak")) = false.

Lemma apart_cons (f : string) (rest : list string) :
  apart (f :: rest) -> apart rest.
Proof.
  intros H g h Hg Hh. apply H; by apply list_elem_of_further.
Qed.

Lemma run_files_other (files : list string) :
  forall m q,
    q ∉ files -> (forall f, f ∈ files -> q <> f +:+ ".bak") ->
    (run_files m files).1.1 !! q = m !! q.
Proof.
  induction files as [|f rest IH]; intros m q Hq Hb; [done|].
  cbn [run_files fst snd]. apply not_elem_of_cons in Hq as [Hq1 Hq2].
  rewrite IH; [|done|].
  - apply outcome_other; [done|]. apply Hb, list_elem_of_here.
  - intros g Hg. by apply Hb, list_elem_of_further.
Qed.

Lemma run_files_is_dir (files : list string) :
  forall m q, is_dir ((run_files m files).1.1 !! q) = is_dir (m !! q).
Proof.
  induction files as [|f rest IH]; intros m q; [done|].
  cbn [run_files fst snd]. by rewrite IH, outcome_is_dir.
Qed.

Lemma run_files_is_file (files : list string) :
  forall m q,
    (forall f, f ∈ files -> q <> f +:+ ".bak") ->
    is_file ((run_files m files).1.1 !! q) = is_file (m !! q).
Proof.
  induction files as [|f rest IH]; intros m q Hb; [done|].
  cbn [run_files fst snd]. rewrite IH.
  - apply outcome_is_file, Hb, list_elem_of_here.
  - intros g Hg. by apply Hb, list_elem_of_further.
Qed.

Lemma flat_map_ext_in {A B} (f g : A -> list B) (l : list A) :
  (forall a, a ∈ l -> f a = g a) -> flat_map f l = flat_map g l.
Proof.
  induction l as [|a l IH]; intros H; [done|]. cbn.
  rewrite (H a), IH; [done| |apply list_elem_of_here].
  intros b Hb. by apply H, list_elem_of_further.
Qed.

Lemma run_files_spec (files : list string) :
  forall m,
    NoDup files -> apart files -> no_backup_dir m files ->
    (forall f, f ∈ files ->
       (run_files m files).1.1 !! f = fixed_node (m !! f))
    /\ (run_files m files).1.2 = flat_map (fun f => (outcome m f).1.2) files
    /\ (run_files m files).2 = length (List.filter (needs_fix m) files).
Proof.
  induction files as [|f rest IH]; intros m Hnd Hap Hbd.
  { split; [|done]. intros f Hf. by apply elem_of_nil in Hf. }
  apply NoDup_cons in Hnd as [Hf Hnd].
  assert (Hsame : forall g, g ∈ rest -> (outcome m f).1.1 !! g = m !! g).
  { intros g Hg. apply outcome_other.
    - intros ->. done.
    - apply Hap; [apply list_elem_of_here|by apply list_elem_of_further]. }
  assert (Hbd1 : no_backup_dir (outcome m f).1.1 rest).
  { intros g Hg. rewrite outcome_is_dir. by apply Hbd, list_elem_of_further. }
  destruct (IH (outcome m f).1.1 Hnd (apart_cons _ _ Hap) Hbd1)
    as (IHa & IHb & IHc).
  assert (Hext : forall g, g ∈ rest ->
            (outcome (outcome m f).1.1 g).1.2 = (outcome m g).1.2
            /\ (outcome (outcome m f).1.1 g).2 = (outcome m g).2).
  { intros g Hg. apply outcome_ext; [by apply Hsame|by apply Hbd1|].
    by apply Hbd, list_elem_of_further. }
  cbn [run_files fst snd]. split_and!.
  - intros g [->|Hg]%elem_of_cons.
    + rewrite run_files_other; [|done|].
      * apply outcome_self, Hbd, list_elem_of_here.
      * intros h Hh. apply Hap; [by apply list_elem_of_further|].
        apply list_elem_of_here.
    + by rewrite IHa, Hsame.
  - rewrite IHb. cbn [flat_map]. f_equal.
    apply flat_map_ext_in. intros g Hg. by apply Hext.
  - rewrite IHc. cbn [List.filter].
    rewrite <- (outcome_result m f) by apply Hbd, list_elem_of_here.
    assert (Hfl : List.filter (needs_fix (outcome m f).1.1) rest
                  = List.filter (needs_fix m) rest).
    { apply filter_ext_in. intros g Hg%list_elem_of_In.
      unfold needs_fix. by rewrite Hsame. }
    rewrite Hfl. by destruct (outcome m f).2.
Qed.

(** X8: when no I/O operation is hit by a fault, the paths are distinct,
    none is the backup path of another and no backup path is a directory,
    the loop leaves every readable file with the transform of its
    content, leaves every other listed path and every path that is
    neither listed nor a backup path as it was, and returns the number of
    files whose content the transform changes. *)
Theorem process_all_fixes_every_file (files : list string) (n : nat)
    (w : world) :
  faults w = [] -> NoDup files -> apart files ->
  no_backup_dir (fs w) files ->
  (process_all files n w).1
  = Ret (n + length (List.filter (needs_fix (fs w)) files))%nat
  /\ (forall f, f ∈ files ->
        fs (process_all files n w).2 !! f = fixed_node (fs w !! f))
  /\ (forall q, q ∉ files -> (forall f, f ∈ files -> q <> f +:+ ".bak") ->
        fs (process_all files n w).2 !! q = fs w !! q).
Proof.
  intros Hw Hnd Hap Hbd.
  destruct (process_all_quiet files n w Hw) as [tr ->].
  destruct (run_files_spec files (fs w) Hnd Hap Hbd) as (Ha & _ & Hc).
  cbn [fst snd fs]. split_and!.
  - by rewrite Hc.
  - done.
  - intros q Hq Hb. by apply run_files_other.
Qed.

(** ** The verification pass *)

(** The text of a file. *)
Definition content (m : gmap string node) (f : string) : text :=
  match m !! f with
  | Some (File c) => c
  | _ => []
  end.

Lemma verify_quiet (files : list string) :
  forall (remaining : list string) (w : world),
    faults w = [] ->
    (forall f, f ∈ files -> is_file (fs w !! f) = true) ->
    exists tr,
      verify files remaining w
      = (Ret (remaining
              ++ List.filter (fun f => has_marker (content (fs w) f)) files),
         World (fs w) (swift_glob w) [] (stdout w) tr).
Proof.
  induction files as [|f rest IH]; intros remaining w Hw Hall.
  - destruct w as [m glob fl out tr]. cbn in *. subst fl.
    exists tr. by rewrite app_nil_r.
  - cbn [verify List.filter]. unfold mbind, M_bind, bind.
    pose proof (Hall f (list_elem_of_here _ _)) as Hf.
    destruct w as [m glob fl out tr]. cbn [faults fs] in *. subst fl.
    unfold content at 1.
    cbv [read_text io get_fs mbind mret M_bind M_ret bind ret raise].
    cbn [fs swift_glob faults stdout trace head tail mjoin option_join fst snd].
    cbn -[has_marker]. destruct (m !! f) as [[c| |]|]; try done.
    cbn -[has_marker].
    set (w1 := World _ _ _ _ _).
    destruct (IH (if has_marker c then remaining ++ [f] else remaining)
                w1 eq_refl) as [tr' ->].
    { intros g Hg. by apply Hall, list_elem_of_further. }
    exists tr'. cbn [fs swift_glob stdout w1]. f_equal. f_equal.
    destruct (has_marker c); [|done]. by rewrite <- app_assoc.
Qed.

Lemma verify_raises (files : list string) :
  forall (remaining : list string) (w : world),
    faults w = [] ->
    (exists f, f ∈ files /\ is_file (fs w !! f) = false) ->
    exists msg w', verify files remaining w = (Raised (Error msg), w').
Proof.
  induction files as [|f rest IH]; intros remaining w Hw (g & Hg & Hno).
  { by apply elem_of_nil in Hg. }
  cbn [verify]. unfold mbind, M_bind, bind.
  destruct w as [m glob fl out tr]. cbn [faults fs] in *. subst fl.
  cbv [read_text io get_fs mbind mret M_bind M_ret bind ret raise].
  cbn [fs swift_glob faults stdout trace head tail mjoin option_join fst snd].
  cbn. destruct (m !! f) as [[c| |]|] eqn:Hf; cbn; try by eexists _, _.
  apply IH; [done|]. cbn [fs].
  apply elem_of_cons in Hg as [->|Hg]; [by rewrite Hf in Hno|eauto].
Qed.

Lemma print_each_lines (l : list string) :
  forall w,
    print_each l w
    = (Ret tt,
       World (fs w) (swift_glob w) (faults w)
         (stdout w ++ map RemainingFile l) (trace w)).
Proof.
  induction l as [|f l IH]; intros [m glob fl out tr].
  - cbn. by rewrite app_nil_r.
  - cbn [print_each]. cbv [print modify mbind M_bind bind].
    rewrite IH. cbn. by rewrite <- app_assoc.
Qed.

(** ** The whole run *)

(** [Fixed {filepath} ({changes} lines changed)] for a file of [m]. *)
Definition fixed_line (m : gmap string node) (f : string) : line :=
  FixedFile f
    (changed_lines (content m f) (fix_malformed_code (content m f))).

(** The lines that close the run. *)
Definition report (remaining : list string) : list line :=
  match remaining with
  | [] => [AllFixed]
  | _ :: _ =>
      MayStillHaveIssues (length remaining)
      :: map RemainingFile (take 5 remaining)
  end.

Lemma flat_map_filter {A B} (p : A -> bool) (g : A -> B) (l : list A) :
  flat_map (fun a => if p a then [g a] else []) l = map g (List.filter p l).
Proof.
  induction l as [|a l IH]; [done|]. cbn. rewrite IH. by destruct (p a).
Qed.

Lemma outcome_lines (m : gmap string node) (f : string) :
  is_file (m !! f) = true -> is_dir (m !! (f +:+ ".bak")) = false ->
  (outcome m f).1.2 = if needs_fix m f then [fixed_line m f] else [].
Proof.
  intros Hf Hb. unfold outcome, needs_fix, fixed_line, content.
  destruct (m !! f) as [[c| |]|]; try done. cbn.
  case_bool_decide; [|done].
  by destruct (m !! (f +:+ ".bak")) as [[cb| |]|].
Qed.

Lemma main_enter (w : world) :
  is_Some (fs w !! sources_dir) ->
  main w
  = (let w0 := World (fs w) (swift_glob w) (faults w)
                 (stdout w ++ [Scanning (length (swift_glob w))]) (trace w) in
     match process_all (swift_glob w) 0 w0 with
     | (Ret fixed_count, w1) =>
         let w2 := World (fs w1) (swift_glob w1) (faults w1)
                     (stdout w1 ++ [FixedCount fixed_count]) (trace w1) in
         match verify (swift_glob w) [] w2 with
         | (Ret remaining, w3) =>
             (Ret tt,
              World (fs w3) (swift_glob w3) (faults w3)
                (stdout w3 ++ report remaining) (trace w3))
         | (Raised e, w3) => (Raised e, w3)
         end
     | (Raised e, w1) => (Raised e, w1)
     end).
Proof.
  destruct w as [m glob fl out tr]. cbn [fs swift_glob faults stdout trace].
  intros Hs. unfold FixSwift.main.
  cbv [get_fs print modify mbind mret M_bind M_ret bind ret raise].
  cbn [fs swift_glob faults stdout trace].
  rewrite bool_decide_true by done.
  cbn [negb fs swift_glob faults stdout trace].
  destruct (process_all glob 0 _) as [[k|e] w1]; [|done].
  destruct (verify glob [] _) as [[remaining|e] [m3 g3 f3 o3 t3]]; [|done].
  cbn [fs swift_glob faults stdout trace].
  destruct remaining as [|f rest]; [done|].
  rewrite print_each_lines. cbn [fs swift_glob faults stdout trace report].
  by rewrite <- app_assoc.
Qed.

(** X9: a run in which no I/O operation is hit by a fault, over a
    [Sources] tree whose Swift files are distinct readable texts, none
    the backup path of another and none with a directory at its backup
    path: [main] returns and prints the number of files found, one
    [Fixed] line for every file whose content the transform changes, the
    number of those files, and then either the success line or the
    number of files whose new content still holds a corruption marker
    with the first five of them. *)
Theorem main_report (w : world) :
  faults w = [] ->
  is_Some (fs w !! sources_dir) ->
  NoDup (swift_glob w) -> apart (swift_glob w) ->
  no_backup_dir (fs w) (swift_glob w) ->
  (forall f, f ∈ swift_glob w -> is_file (fs w !! f) = true) ->
  let files := swift_glob w in
  let changed := List.filter (needs_fix (fs w)) files in
  let remaining :=
    List.filter
      (fun f => has_marker (fix_malformed_code (content (fs w) f))) files in
  (main w).1 = Ret tt
  /\ stdout (main w).2
     = stdout w
       ++ Scanning (length files)
          :: map (fixed_line (fs w)) changed
          ++ FixedCount (length changed) :: report remaining.
Proof.
  intros Hw Hs Hnd Hap Hbd Hall files changed remaining.
  rewrite main_enter by done. cbn zeta.
  destruct w as [m glob fl out tr]. cbn [fs swift_glob faults stdout trace] in *.
  subst fl. fold files.
  set (w0 := World _ _ _ _ _).
  destruct (process_all_quiet files 0 w0 eq_refl) as [tr1 ->].
  destruct (run_files_spec files m Hnd Hap Hbd) as (Ha & Hb & Hc).
  cbn [fs swift_glob faults stdout trace w0].
  set (w2 := World _ _ _ _ _).
  destruct (verify_quiet files [] w2 eq_refl) as [tr2 ->].
  { intros f Hf. cbn [fs w2]. rewrite Ha by done.
    specialize (Hall f Hf). by destruct (m !! f) as [[c| |]|]. }
  cbn [fs swift_glob faults stdout trace w2 fst snd app].
  split; [done|].
  assert (Hrem : List.filter
                   (fun f => has_marker (content (run_files m files).1.1 f))
                   files = remaining).
  { apply filter_ext_in. intros f Hf%list_elem_of_In.
    unfold content. rewrite Ha by done.
    specialize (Hall f Hf). by destruct (m !! f) as [[c| |]|]. }
  rewrite Hrem, Hb, Hc.
  rewrite (flat_map_ext_in _
             (fun f => if needs_fix m f then [fixed_line m f] else [])).
  - rewrite flat_map_filter. fold changed.
    by rewrite <- !app_assoc.
  - intros f Hf. apply outcome_lines; [by apply Hall|by apply Hbd].
Qed.

(** X10: when no I/O operation is hit by a fault and no Swift file is
    the backup path of another, the process exits with status 0 exactly
    when [Sources] exists and every Swift file found is a readable text;
    otherwise with status 1. *)
Theorem exit_status_quiet (w : world) :
  faults w = [] -> apart (swift_glob w) ->
  ((script w).1 = 0%Z <->
   is_Some (fs w !! sources_dir)
   /\ forall f, f ∈ swift_glob w -> is_file (fs w !! f) = true)
  /\ ((script w).1 = 0%Z \/ (script w).1 = 1%Z).
Proof.
  intros Hw Hap. unfold FixSwift.script.
  destruct (decide (is_Some (fs w !! sources_dir))) as [Hs|Hs].
  2:{ destruct w as [m glob fl out tr]. cbn [fs] in *.
      unfold FixSwift.main.
      cbv [get_fs print modify mbind mret M_bind M_ret bind ret raise].
      cbn [fs]. rewrite bool_decide_false by done. cbn.
      split; [|by right]. split; [done|]. by intros [? _]. }
  rewrite main_enter by done. cbn zeta.
  destruct w as [m glob fl out tr]. cbn [fs swift_glob faults stdout trace] in *.
  subst fl.
  set (w0 := World _ _ _ _ _).
  destruct (process_all_quiet glob 0 w0 eq_refl) as [tr1 ->].
  cbn [fs swift_glob faults stdout trace w0].
  set (w2 := World _ _ _ _ _).
  assert (Hfile : forall f, f ∈ glob ->
            is_file (fs w2 !! f) = is_file (m !! f)).
  { intros f Hf. cbn [fs w2]. apply run_files_is_file.
    intros g Hg. by apply Hap. }
  destruct (decide (Forall (fun f => is_file (m !! f) = true) glob))
    as [Hall|Hnot].
  - rewrite Forall_forall in Hall.
    destruct (verify_quiet glob [] w2 eq_refl) as [tr2 ->].
    { intros f Hf. rewrite Hfile by done. by apply Hall. }
    cbn. split; [|by left]. split; [|done]. intros _. split; [done|].
    intros f Hf. by apply Hall.
  - apply not_Forall_Exists in Hnot; [|apply _].
    apply Exists_exists in Hnot as (f & Hf & Hno).
    destruct (verify_raises glob [] w2 eq_refl) as (msg & w' & ->).
    { exists f. split; [done|]. rewrite Hfile by done.
      by apply not_true_is_false. }
    cbn. split; [|by right]. split; [done|]. intros [_ Hall].
    by destruct Hno, (Hall f Hf).
Qed.

(** X13: without [Sources] the script prints the error line and exits
    with status 1; no file is read or written. *)
Theorem main_without_sources (w : world) :
  fs w !! sources_dir = None ->
  script w
  = (1%Z,
     World (fs w) (swift_glob w) (faults w) (stdout w ++ [SourcesNotFound])
       (trace w)).
Proof.
  destruct w as [m glob fl out tr]. cbn [fs swift_glob faults stdout trace].
  intros H. unfold FixSwift.script, FixSwift.main.
  cbv [get_fs print modify mbind mret M_bind M_ret bind ret raise].
  cbn [fs]. rewrite H. rewrite bool_decide_false by (intros [? ?]; done).
  reflexivity.
Qed.

(** X14: with [Sources] present and no Swift file in it the script
    prints the three summary lines and exits with status 0, whatever the
    state of the I/O system; no file is read or written. *)
Theorem main_without_files (w : world) :
  is_Some (fs w !! sources_dir) ->
  swift_glob w = [] ->
  script w
  = (0%Z,
     World (fs w) [] (faults w)
       (stdout w ++ [Scanning 0; FixedCount 0; AllFixed]) (trace w)).
Proof.
  intros Hs Hg. unfold FixSwift.script. rewrite main_enter by done.
  destruct w as [m glob fl out tr]. cbn in Hg. subst glob. cbn.
  by rewrite <- !app_assoc.
Qed.

(** X15: a directory at the backup path blocks the fix: the file keeps
    its content, nothing is written, the error is reported and
    [process_file] returns [False]. *)
Theorem backup_path_is_directory (filepath : string) (w : world) (c : text) :
  faults w = [] ->
  fs w !! filepath = Some (File c) ->
  fix_malformed_code c <> c ->
  fs w !! (filepath +:+ ".bak") = Some Dir ->
  (process_file filepath w).1 = Ret false
  /\ fs (process_file filepath w).2 = fs w
  /\ stdout (process_file filepath w).2
     = stdout w ++ [ErrorProcessing filepath "IsADirectoryError"].
Proof.
  intros Hw Hc Hfix Hb.
  destruct (process_file_quiet filepath w Hw) as [tr ->].
  unfold outcome. rewrite Hc, bool_decide_true, Hb by done. done.
Qed.

(** ** The removal of the backup fails *)

Lemma rewrite_fs_kept (m : gmap string node) (f : string) (c c' : text) :
  <[f := File c']>
    (<[f := File []]>
       (<[f +:+ ".bak" := File c]> (<[f +:+ ".bak" := File []]> m)))
  = <[f := File c']> (<[f +:+ ".bak" := File c]> m).
Proof.
  apply map_eq. intros q.
  destruct (decide (q = f)) as [->|Hq2].
  { by rewrite !lookup_insert_eq. }
  rewrite !(lookup_insert_ne _ f q) by done.
  destruct (decide (q = f +:+ ".bak")) as [->|Hq1].
  { by rewrite !lookup_insert_eq. }
  by rewrite !lookup_insert_ne by done.
Qed.

(** X11: when the content changes, the five operations up to the
    overwrite proceed and [os.remove] of the backup fails, the file
    already holds the fixed content and the backup stays behind with the
    original; both the [Fixed] line and the error line are printed and
    [process_file] returns [False], so the file is not counted as
    fixed. *)
Theorem backup_removal_failure (filepath : string) (w : world) (c : text)
    (ft : fault) (later : list (option fault)) :
  fs w !! filepath = Some (File c) ->
  fix_malformed_code c <> c ->
  is_dir (fs w !! (filepath +:+ ".bak")) = false ->
  faults w = [None; None; None; None; None; Some ft] ++ later ->
  let bak := filepath +:+ ".bak" in
  process_file filepath w
  = (Ret false,
     World (<[filepath := File (fix_malformed_code c)]>
              (<[bak := File c]> (fs w)))
       (swift_glob w) later
       (stdout w
        ++ [FixedFile filepath (changed_lines c (fix_malformed_code c));
            ErrorProcessing filepath (reason ft)])
       (trace w
        ++ [EvRead filepath; EvOpenW bak; EvWrite bak; EvOpenW filepath;
            EvWrite filepath; EvRemove bak])).
Proof.
  pose proof (backup_path_fresh filepath) as Hbak.
  destruct w as [m glob fl out tr]. cbn [faults fs stdout swift_glob trace].
  intros Hc Hfix Hb ->. run_io. cbn. rewrite Hc. cbn.
  rewrite bool_decide_true by done. cbn.
  set (bak := filepath +:+ ".bak") in *.
  destruct (m !! bak) as [[cb| |]|] eqn:Hm; cbn; try done.
  all: rewrite 2!(lookup_insert_ne _ bak filepath), Hc by done; cbn.
  all: unfold bak; rewrite rewrite_fs_kept.
  all: by rewrite <- !app_assoc.
Qed.

(** ** The number of lines reported as changed *)

Lemma differing_pairs {A} `{EqDecision A} (la lb : list A) :
  let k := (length la `min` length lb)%nat in
  (length (filter (fun ab : A * A => ab.1 ≠ ab.2) (zip la lb)) <= k)%nat
  /\ (length (filter (fun ab : A * A => ab.1 ≠ ab.2) (zip la lb)) = 0%nat
      <-> take k la = take k lb).
Proof.
  revert lb. induction la as [|a la IH]; intros [|b lb]; try done.
  destruct (IH lb) as [IH1 IH2]. cbn zeta in IH1, IH2.
  cbn [zip_with length Nat.min take]. rewrite filter_cons. cbn [fst snd].
  destruct (decide (a ≠ b)) as [Hab|Hab]; cbn [length].
  - split; [lia|]. split; [done|]. intros [= ? _]. done.
  - apply dec_stable in Hab as ->. split; [lia|]. rewrite IH2.
    split; [by intros ->|]. by intros [= ?].
Qed.

End Run.

(** X12: the count printed in the [Fixed] line pairs the lines of the
    two texts by position: it is at most the number of lines of the
    shorter text, and it is zero exactly when the two texts have the same
    lines up to that number; lines beyond it are not counted. *)
Theorem changed_lines_counts_common_lines (original modified : text) :
  let k := (length (split_lines original)
            `min` length (split_lines modified))%nat in
  (changed_lines original modified <= k)%nat
  /\ (changed_lines original modified = 0%nat
      <-> take k (split_lines original) = take k (split_lines modified)).
Proof. apply differing_pairs. Qed.

(** ** Concrete worlds *)

Ltac which_file H :=
  cbn in H;
  repeat match type of H with
         | _ ∈ _ :: _ => apply elem_of_cons in H as [H|H]
         | _ ∈ [] => apply elem_of_nil in H; destruct H
         end.

(** [Sources] holds two Swift files: one with a listed split name, one
    with a split name that is not listed. *)
Definition two_files : world :=
  World
    (<["Sources" := Dir]>
       (<["Sources/a.swift" := File (lit "func cpublic reate()")]>
          (<["Sources/b.swift" := File (lit "ipublic nit()")]> ∅)))
    ["Sources/a.swift"; "Sources/b.swift"] [] [] [].

(** [Sources/a.swift] needs a fix and the removal of its backup fails. *)
Definition busy_backup : world :=
  World
    (<["Sources" := Dir]>
       (<["Sources/a.swift" := File (lit "func cpublic reate()")]> ∅))
    ["Sources/a.swift"]
    [None; None; None; None; None; Some (Fault "PermissionError" 0)] [] [].

Lemma two_files_distinct : NoDup (swift_glob two_files).
Proof.
  apply NoDup_cons. split; [|apply NoDup_singleton].
  intros H. apply list_elem_of_singleton in H. discriminate H.
Qed.

Lemma two_files_apart : apart (swift_glob two_files).
Proof.
  intros f g Hf Hg. which_file Hf; which_file Hg; subst; discriminate.
Qed.

Lemma two_files_no_backup_dir :
  no_backup_dir (fs two_files) (swift_glob two_files).
Proof.
  intros f Hf. which_file Hf; subst; vm_compute; reflexivity.
Qed.

Lemma two_files_readable (f : string) :
  f ∈ swift_glob two_files -> is_file (fs two_files !! f) = true.
Proof.
  intros Hf. which_file Hf; subst; vm_compute; reflexivity.
Qed.

Lemma process_all_fixes_every_file_witness :
  let alnum := fun _ : N => false in
  let files := swift_glob two_files in
  (process_all alnum files 0 two_files).1
  = Ret (0 + length (List.filter (needs_fix alnum (fs two_files)) files))%nat
  /\ (forall f, f ∈ files ->
        fs (process_all alnum files 0 two_files).2 !! f
        = fixed_node alnum (fs two_files !! f))
  /\ (forall q, q ∉ files -> (forall f, f ∈ files -> q <> f +:+ ".bak") ->
        fs (process_all alnum files 0 two_files).2 !! q = fs two_files !! q).
Proof.
  apply (process_all_fixes_every_file (fun _ => false)
           (swift_glob two_files) 0 two_files eq_refl
           two_files_distinct two_files_apart two_files_no_backup_dir).
Defined.

Lemma main_report_witness :
  (main (fun _ => false) two_files).1 = Ret tt
  /\ stdout (main (fun _ => false) two_files).2
     = [Scanning 2; FixedFile "Sources/a.swift" 1; FixedCount 1;
        MayStillHaveIssues 1; RemainingFile "Sources/b.swift"].
Proof.
  destruct (main_report (fun _ => false) two_files eq_refl) as [Hr Hout].
  - vm_compute. eauto.
  - exact two_files_distinct.
  - exact two_files_apart.
  - exact two_files_no_backup_dir.
  - exact two_files_readable.
  - split; [exact Hr|]. rewrite Hout. vm_compute. reflexivity.
Defined.

Lemma exit_status_quiet_witness :
  ((script (fun _ => false) two_files).1 = 0%Z <->
   is_Some (fs two_files !! sources_dir)
   /\ forall f, f ∈ swift_glob two_files ->
        is_file (fs two_files !! f) = true)
  /\ ((script (fun _ => false) two_files).1 = 0%Z
      \/ (script (fun _ => false) two_files).1 = 1%Z).
Proof.
  exact (exit_status_quiet (fun _ => false) two_files eq_refl two_files_apart).
Defined.

Lemma backup_removal_failure_witness :
  process_file (fun _ => false) "Sources/a.swift" busy_backup
  = (Ret false,
     World
       (<["Sources/a.swift" := File (lit "public func create()")]>
          (<["Sources/a.swift.bak" := File (lit "func cpublic reate()")]>
             (fs busy_backup)))
       ["Sources/a.swift"] []
       [FixedFile "Sources/a.swift" 1;
        ErrorProcessing "Sources/a.swift" "PermissionError"]
       [EvRead "Sources/a.swift"; EvOpenW "Sources/a.swift.bak";
        EvWrite "Sources/a.swift.bak"; EvOpenW "Sources/a.swift";
        EvWrite "Sources/a.swift"; EvRemove "Sources/a.swift.bak"]).
Proof.
  rewrite (backup_removal_failure (fun _ => false) "Sources/a.swift"
             busy_backup (lit "func cpublic reate()")
             (Fault "PermissionError" 0) []).
  - vm_compute. reflexivity.
  - vm_compute. reflexivity.
  - vm_compute. discriminate.
  - vm_compute. reflexivity.
  - reflexivity.
Defined.

(** Nothing at [Sources]. *)
Definition no_sources : world := World ∅ [] [] [] [].

(** [Sources] is an empty directory. *)
Definition empty_sources : world :=
  World (<["Sources" := Dir]> ∅) [] [] [] [].

(** A directory sits where the backup of [Sources/a.swift] would go. *)
Definition blocked_backup : world :=
  World
    (<["Sources" := Dir]>
       (<["Sources/a.swift" := File (lit "func cpublic reate()")]>
          (<["Sources/a.swift.bak" := Dir]> ∅)))
    ["Sources/a.swift"] [] [] [].

Lemma main_without_sources_witness :
  script (fun _ => false) no_sources
  = (1%Z, World ∅ [] [] [SourcesNotFound] []).
Proof. exact (main_without_sources (fun _ => false) no_sources eq_refl). Defined.

Lemma main_without_files_witness :
  script (fun _ => false) empty_sources
  = (0%Z,
     World (fs empty_sources) [] []
       [Scanning 0; FixedCount 0; AllFixed] []).
Proof.
  apply (main_without_files (fun _ => false) empty_sources); [|reflexivity].
  vm_compute. eauto.
Defined.

Lemma backup_path_is_directory_witness :
  let r := process_file (fun _ => false) "Sources/a.swift" blocked_backup in
  r.1 = Ret false
  /\ fs r.2 = fs blocked_backup
  /\ stdout r.2 = [ErrorProcessing "Sources/a.swift" "IsADirectoryError"].
Proof.
  apply (backup_path_is_directory (fun _ => false) "Sources/a.swift"
           blocked_backup (lit "func cpublic reate()") eq_refl).
  - vm_compute. reflexivity.
  - vm_compute. discriminate.
  - vm_compute. reflexivity.
Defined.

End RunProofs.

(* ===================================================================== *)
(** * The verification pass and the exit status, whatever the faults    *)
(* ===================================================================== *)

Module VerifyProofs.

Import Py Re FixSwift FileProofs RunProofs.

#[local] Opaque FixSwift.fix_malformed_code.

(** What the read of [f] raises, if anything, when the schedule holds
    [entry] for it: the scheduled fault, or the error of a path that is
    not a decodable text file. *)
Definition read_error (m : gmap string node) (entry : option fault)
    (f : string) : option string :=
  match entry with
  | Some ft => Some (reason ft)
  | None =>
      match m !! f with
      | Some (File _) => None
      | Some Undecodable => Some "UnicodeDecodeError"
      | Some Dir => Some "IsADirectoryError"
      | None => Some "FileNotFoundError"
      end
  end.

Lemma read_text_outcome (f : string) (w : world) :
  read_text f w
  = (match read_error (fs w) (mjoin (head (faults w))) f with
     | None => Ret (content (fs w) f)
     | Some msg => Raised (Error msg)
     end,
     World (fs w) (swift_glob w) (tail (faults w)) (stdout w)
       (trace w ++ [EvRead f])).
Proof.
  destruct w as [m glob fl out tr].
  cbv [read_text io get_fs mbind mret M_bind M_ret bind ret raise].
  cbn [fs swift_glob faults stdout trace fst snd]. unfold read_error, content.
  destruct (mjoin (head fl)); [done|]. cbn [fs].
  by destruct (m !! f) as [[c'| |]|].
Qed.

Section Verify.

Variable uni_alnum : N -> bool.

Local Abbreviation process_all := (process_all uni_alnum).
Local Abbreviation main := (main uni_alnum).
Local Abbreviation script := (script uni_alnum).

(** The verification pass, read by read. *)
Lemma verify_run (files : list string) :
  forall (remaining : list string) (w : world),
    let r := (verify files remaining w).1 in
    let w' := (verify files remaining w).2 in
    let error_at i f := read_error (fs w) (mjoin (faults w !! i)) f in
    fs w' = fs w /\ stdout w' = stdout w /\ swift_glob w' = swift_glob w
    /\ exists attempted,
         attempted `prefix_of` files
         /\ trace w' = trace w ++ map EvRead attempted
         /\ ((forall i f, files !! i = Some f -> error_at i f = None) ->
             attempted = files
             /\ r = Ret (remaining
                         ++ List.filter
                              (fun f => has_marker (content (fs w) f)) files))
         /\ (forall i f msg,
               files !! i = Some f ->
               (forall j g, (j < i)%nat -> files !! j = Some g ->
                            error_at j g = None) ->
               error_at i f = Some msg ->
               attempted = take (S i) files /\ r = Raised (Error msg))
         /\ (forall l, r = Ret l ->
               attempted = files
               /\ l = remaining
                      ++ List.filter
                           (fun f => has_marker (content (fs w) f)) files)
         /\ (forall e, r = Raised e -> exists msg, e = Error msg).
Proof.
  induction files as [|f rest IH]; intros remaining w; cbn zeta.
  { cbn. split_and!; try done. exists []. rewrite !app_nil_r.
    split_and!; try done. by intros l [= <-]. }
  cbn [verify]. unfold mbind, M_bind, bind. rewrite read_text_outcome.
  destruct (read_error (fs w) (mjoin (head (faults w))) f) as [msg0|] eqn:E0.
  - cbn [fst snd fs stdout swift_glob trace].
    split_and!; try done.
    exists [f]. split_and!; try done.
    + apply prefix_cons, prefix_nil.
    + intros Hall. specialize (Hall 0%nat f eq_refl).
      rewrite <- head_lookup in Hall. congruence.
    + intros [|i] g msg Hi Hbefore Herr.
      * cbn in Hi. injection Hi as <-. rewrite <- head_lookup in Herr.
        split; [done|congruence].
      * specialize (Hbefore 0%nat f ltac:(lia) eq_refl).
        rewrite <- head_lookup in Hbefore. congruence.
    + intros e [= <-]. eauto.
  - set (w1 := World _ _ _ _ _).
    specialize (IH (if has_marker (content (fs w) f)
                    then remaining ++ [f] else remaining) w1).
    cbn zeta in IH.
    destruct IH as (H1 & H2 & H3 & att & Hpre & Htr & Hok & Hfail & Hret & Hex).
    cbn [fs stdout swift_glob trace faults w1] in *.
    split_and!; try done.
    exists (f :: att). split_and!.
    + by apply prefix_cons.
    + rewrite Htr. cbn [map]. by rewrite <- app_assoc.
    + intros Hall. destruct Hok as [-> ->].
      { intros i g Hi. rewrite lookup_tail. by apply (Hall (S i)). }
      split; [done|]. cbn [List.filter].
      destruct (has_marker (content (fs w) f)); [|done].
      by rewrite <- app_assoc.
    + intros [|i] g msg Hi Hbefore Herr.
      * cbn in Hi. injection Hi as <-. rewrite <- head_lookup in Herr.
        congruence.
      * destruct (Hfail i g msg) as [-> ->]; try done.
        -- intros j h Hj Hh. rewrite lookup_tail.
           apply (Hbefore (S j)); [lia|done].
        -- by rewrite lookup_tail.
    + intros l Hl. destruct (Hret l Hl) as [-> ->]. split; [done|].
      cbn [List.filter].
      destruct (has_marker (content (fs w) f)); [|done].
      by rewrite <- app_assoc.
    + done.
Qed.

(** X16: the verification pass only reads.  Whatever the faults, it
    leaves the files and the output as they are and attempts the reads in
    the order of the list.  When every read proceeds (no fault is
    scheduled for it and the path is a decodable text file) it reads
    every file and returns the files whose content holds a corruption
    marker, in order; otherwise it stops at the first read that fails,
    having attempted the files up to and including that one, and raises
    the error of that read. *)
Theorem verify_only_reads (files : list string) :
  forall (remaining : list string) (w : world),
    let r := (verify files remaining w).1 in
    let w' := (verify files remaining w).2 in
    let error_at i f := read_error (fs w) (mjoin (faults w !! i)) f in
    fs w' = fs w /\ stdout w' = stdout w /\ swift_glob w' = swift_glob w
    /\ exists attempted,
         attempted `prefix_of` files
         /\ trace w' = trace w ++ map EvRead attempted
         /\ ((forall i f, files !! i = Some f -> error_at i f = None) ->
             attempted = files
             /\ r = Ret (remaining
                         ++ List.filter
                              (fun f => has_marker (content (fs w) f)) files))
         /\ (forall i f msg,
               files !! i = Some f ->
               (forall j g, (j < i)%nat -> files !! j = Some g ->
                            error_at j g = None) ->
               error_at i f = Some msg ->
               attempted = take (S i) files /\ r = Raised (Error msg))
         /\ (forall l, r = Ret l ->
               attempted = files
               /\ l = remaining
                      ++ List.filter
                           (fun f => has_marker (content (fs w) f)) files)
         /\ (forall e, r = Raised e -> exists msg, e = Error msg).
Proof. apply verify_run. Qed.

(** X17: whatever the files and the faults, the script exits with
    status 0 or 1: with 0 exactly when [main] returns; [sys.exit(1)] is
    raised exactly when [Sources] is missing, and any other exception
    that ends the run is the error of a read of the verification pass,
    raised after the loop has processed every file. *)
Theorem exit_status_is_0_or_1 (w : world) :
  ((script w).1 = 0%Z \/ (script w).1 = 1%Z)
  /\ ((script w).1 = 0%Z <-> (main w).1 = Ret tt)
  /\ (forall code, (main w).1 = Raised (SystemExit code) <->
        code = 1%Z /\ fs w !! sources_dir = None)
  /\ (forall msg, (main w).1 = Raised (Error msg) ->
        exists n w1,
          process_all (swift_glob w) 0
            (World (fs w) (swift_glob w) (faults w)
               (stdout w ++ [Scanning (length (swift_glob w))]) (trace w))
          = (Ret n, w1)
          /\ (verify (swift_glob w) []
                (World (fs w1) (swift_glob w1) (faults w1)
                   (stdout w1 ++ [FixedCount n]) (trace w1))).1
             = Raised (Error msg)).
Proof.
  unfold FixSwift.script.
  destruct (decide (is_Some (fs w !! sources_dir))) as [Hs|Hs].
  2:{ assert (Hnone : fs w !! sources_dir = None).
      { destruct (fs w !! sources_dir) eqn:E; [|done]. destruct Hs. eauto. }
      destruct w as [m glob fl out tr]. cbn [fs] in *.
      unfold FixSwift.main.
      cbv [get_fs print modify mbind mret M_bind M_ret bind ret raise].
      cbn [fs]. rewrite bool_decide_false by done. cbn.
      split_and!; [by right|done| |done].
      intros code. split; [by intros [= <-]|by intros [-> _]]. }
  rewrite main_enter by done. cbn zeta.
  set (w0 := World _ _ _ _ _).
  destruct (process_all_continues uni_alnum (swift_glob w) 0 w0)
    as (n & w1 & Hall & _ & _).
  rewrite Hall.
  set (w2 := World _ _ _ _ _).
  pose proof (verify_run (swift_glob w) [] w2) as Hv. cbn zeta in Hv.
  destruct Hv as (_ & _ & _ & att & _ & _ & _ & _ & _ & Hex).
  destruct (verify (swift_glob w) [] w2) as [[l|e] w3] eqn:Hver;
    cbn [fst snd] in *.
  - cbn. split_and!; [by left|done| |done].
    intros code. split; [done|]. intros [_ Hnone].
    rewrite Hnone in Hs. by destruct Hs.
  - destruct (Hex e eq_refl) as [msg ->]. cbn.
    split_and!; [by right|done| |].
    + intros code. split; [done|]. intros [_ Hnone].
      rewrite Hnone in Hs. by destruct Hs.
    + intros msg' [= <-]. exists n, w1. split; [done|].
      fold w2. by rewrite Hver.
Qed.

End Verify.

End VerifyProofs.
